(** * Jumping Dino: the motion-to-jump detector and the round controller

    A shallow embedding of the three versions of the application component
    that the repository holds:

    - [Basic]  : [src/App.jsx], the detector alone;
    - [Local]  : the version with session statistics, a streak and a local
                 top-5 leaderboard (second half of [unnamed/part_000]);
    - [Arcade] : the version with a player name, a START / PLAYING /
                 GAME_OVER screen state, an active-round flag and a remote
                 leaderboard (first half of [unnamed/part_000]).

    Numbers.  A JavaScript number is an IEEE 754 binary64 value.  The
    quantities that the code only ever fills with integers (millisecond
    clock readings, scores, jump and round counters, ranks) are modelled by
    [Z]; this is exact below 2^53.  The two quantities that are fractional,
    the shoulder coordinates and the round time in seconds, are modelled by
    Rocq's primitive binary64 [float], so that [0.04] below is the very
    constant the program compares with.

    State.  [useRef] cells and [useState] variables are fields of one
    [State] record per version; a handler is a function on that record.
    React applies the functional updaters passed to a setter in the order
    they were queued, each to the result of the one before, so a setter call
    is modelled by applying the updater at once.  [localStorage] is a finite
    map from key strings to stored values.  Canvas drawing, audio playback
    and console output touch none of the modelled fields and are left out. *)

From Stdlib Require Import ZArith Lia Bool Ascii String List DecimalString.
From Stdlib Require Import Sorting.Sorted Sorting.Permutation.
From Stdlib Require Import PrimFloat SpecFloat FloatOps Uint63.
From stdpp Require Import gmap strings list sorting.

Open Scope Z_scope.

(* ================================================================== *)
(** * Numbers *)

(** An integer-valued number used in a floating-point operation. *)
Definition float_of_Z (z : Z) : float :=
  if z <? 0 then PrimFloat.opp (PrimFloat.of_uint63 (Uint63.of_Z (- z)))
  else PrimFloat.of_uint63 (Uint63.of_Z z).

(** [Math.round]: the integer closest to [x], a tie going towards
    +infinity, that is [floor (x + 1/2)] computed exactly.  The result is
    read as an integer; on NaN and the infinities, where JavaScript returns
    its argument, the model returns [0] (the program rounds a quotient of
    two finite numbers, which is finite). *)
Definition Math_round (x : float) : Z :=
  match Prim2SF x with
  | S754_finite s m e =>
      let n := if s then Z.neg m else Z.pos m in
      if 0 <=? e then n * 2 ^ e
      else (2 * n + 2 ^ (- e)) / (2 * 2 ^ (- e))
  | _ => 0
  end.

(** The two literals of the detector: [0.04], read as the nearest binary64
    value just as the JavaScript parser reads it, and [0.0401], which the
    specification uses as a sample above the threshold. *)
Definition lit_0_04 : float := 0x1.47ae147ae147bp-5%float.
Definition lit_0_0401 : float := 0x1.487fcb923a29cp-5%float.

(* ================================================================== *)
(** * Reading the score: the digits joined without a separator, given to
    [parseInt] with radix 10, and [|| 0] *)

Definition join (sep : string) (parts : list string) : string :=
  String.concat sep parts.

(** White space that [parseInt] skips, among the characters below 256:
    TAB, LF, VT, FF, CR, SPACE and NO-BREAK SPACE. *)
Definition isWhiteSpace (c : ascii) : bool :=
  let n := Z.of_nat (nat_of_ascii c) in
  ((9 <=? n) && (n <=? 13)) || (n =? 32) || (n =? 160).

Fixpoint trimStart (s : string) : string :=
  match s with
  | String c r => if isWhiteSpace c then trimStart r else s
  | EmptyString => EmptyString
  end.

Definition digitValue (c : ascii) : option Z :=
  let n := Z.of_nat (nat_of_ascii c) in
  if (48 <=? n) && (n <=? 57) then Some (n - 48) else None.

(** The longest prefix of decimal digits, folded into its value; [None]
    when that prefix is empty. *)
Fixpoint parseDigits (acc : option Z) (s : string) : option Z :=
  match s with
  | String c r =>
      match digitValue c with
      | Some d => parseDigits (Some (10 * default 0 acc + d)) r
      | None => acc
      end
  | EmptyString => acc
  end.

(** [parseInt(s, 10)]; [None] is NaN.  The result is the integer the
    digits spell, which is the number JavaScript returns as long as it is
    below 2^53 in absolute value; from there on JavaScript rounds to
    binary64 and this function does not. *)
Definition parseInt (s : string) : option Z :=
  match trimStart s with
  | String "-" r => Z.opp <$> parseDigits None r
  | String "+" r => parseDigits None r
  | r => parseDigits None r
  end.

(** What [window.Runner.instance_.distanceMeter.digits] evaluates to:
    [None] when the property chain throws (no engine instance yet),
    otherwise the array of digit strings. *)
Definition EngineDigits := option (list string).

(** The [try { ... } catch { score = 0 }] block of [handleGameOver]:
    [NaN || 0] and [0 || 0] are both [0]. *)
Definition readScore (digits : EngineDigits) : Z :=
  match digits with
  | None => 0
  | Some ds => default 0 (parseInt (join EmptyString ds))
  end.


(* ================================================================== *)
(** * Session statistics and streak *)

Record SessionStats := mkStats {
  totalJumps : Z;
  totalPlayTime : float;
  totalScore : Z;
  roundsPlayed : Z
}.

Record Streak := mkStreak {
  current : Z;
  best : Z;
  lastScore : Z
}.

Definition emptyStats : SessionStats := mkStats 0 0%float 0 0.
Definition emptyStreak : Streak := mkStreak 0 0 0.

(** The updater passed to [setSessionStats] in [handleGameOver]. *)
Definition updateSessionStats (jumps : Z) (roundTime : float) (score : Z)
    (prev : SessionStats) : SessionStats :=
  {| totalJumps := totalJumps prev + jumps;
     totalPlayTime := PrimFloat.add (totalPlayTime prev) roundTime;
     totalScore := totalScore prev + score;
     roundsPlayed := roundsPlayed prev + 1 |}.

(** The updater passed to [setStreak] in [handleGameOver]. *)
Definition updateStreak (score : Z) (prev : Streak) : Streak :=
  if (lastScore prev =? 0) || (lastScore prev <? score) then
    let current' := current prev + 1 in
    {| current := current';
       best := Z.max (best prev) current';
       lastScore := score |}
  else
    {| current := 0; best := best prev; lastScore := score |}.

(** [(Date.now() - roundStartRef.current) / 1000]. *)
Definition roundTimeOf (now_ start : Z) : float :=
  PrimFloat.div (float_of_Z (now_ - start)) (float_of_Z 1000).

(* ================================================================== *)
(** * Pose frames and the detector's test *)

Record Landmark := mkLandmark { lm_x : float; lm_y : float }.

(** One call of the [pose.onResults] callback: the landmarks of the frame
    ([None] when no pose was found) and what [Date.now()] returns in it. *)
Record Frame := mkFrame {
  poseLandmarks : option (list Landmark);
  now : Z
}.

(** The event handed to [simulateSpacebar]: a key-down now, the key-up
    100 ms later. *)
Record JumpEvent := mkJump { t : Z }.

(** [(leftShoulder.y + rightShoulder.y) / 2] over landmarks 11 and 12;
    [None] when one of them is missing and reading [.y] throws. *)
Definition avgShoulderY (lms : list Landmark) : option float :=
  match lms !! 11%nat, lms !! 12%nat with
  | Some l, Some r => Some (PrimFloat.div (PrimFloat.add (lm_y l) (lm_y r)) 2%float)
  | _, _ => None
  end.

(** [diff > 0.04 && now - lastJumpTimeRef.current > 500]. *)
Definition jumpTest (diff : float) (now_ last : Z) : bool :=
  PrimFloat.ltb lit_0_04 diff && (500 <? now_ - last).

(** A frame whose two shoulders are both at height [y]. *)
Definition frameAt (y : float) (now_ : Z) : Frame :=
  mkFrame (Some (replicate 33 (mkLandmark 0%float y))) now_.

Definition lostFrame (now_ : Z) : Frame := mkFrame None now_.

(** A sample: the shoulder height a frame carries, if it carries one. *)
Definition sampleOf (f : Frame) : option float :=
  poseLandmarks f ≫= avgShoulderY.

(** A handler run over a sequence of inputs, collecting the jump events it
    emits, oldest first. *)
Fixpoint runWith {S Ev : Type} (step : Ev -> S -> S * option JumpEvent)
    (evs : list Ev) (s : S) : S * list JumpEvent :=
  match evs with
  | [] => (s, [])
  | ev :: evs' =>
      let (s1, j) := step ev s in
      let (s2, js) := runWith step evs' s1 in
      (s2, option_list j ++ js)
  end.

(* ================================================================== *)
(** * [src/App.jsx]: the detector alone *)

Module Basic.

Record State := mkState {
  prevShoulderRef : option float;   (* null at start *)
  lastJumpTimeRef : Z   (* 0 at start *)
}.

Definition init : State := mkState None 0.

Definition onResults (f : Frame) (s : State) : State * option JumpEvent :=
  match poseLandmarks f with
  | None => (s, None)
  | Some lms =>
      match avgShoulderY lms with
      | None => (s, None)
      | Some y =>
          let jumped :=
            match prevShoulderRef s with
            | Some prev => jumpTest (PrimFloat.sub prev y) (now f) (lastJumpTimeRef s)
            | None => false
            end in
          ({| prevShoulderRef := Some y;
              lastJumpTimeRef := if jumped then now f else lastJumpTimeRef s |},
           if jumped then Some (mkJump (now f)) else None)
      end
  end.

(** The callback over a stream of frames, with the events it emits. *)
Definition run : list Frame -> State -> State * list JumpEvent :=
  runWith onResults.

End Basic.

(* ================================================================== *)
(** * [localStorage] *)

Module STORAGE_KEYS.
Definition LEADERBOARD : string := "dino_leaderboard".
Definition SESSION_STATS : string := "dino_session_stats".
Definition STREAK : string := "dino_streak".
Definition THEME : string := "dino_theme".
End STORAGE_KEYS.

(** The key that [handleNameSubmit] and [handleMainMenu] use directly. *)
Definition PLAYER_NAME_KEY : string := "dino_player_name".

(** What a key of [localStorage] holds, by the shape of the value that was
    serialised into it; [E] is the type of leaderboard rows.  [Malformed]
    is an item that [JSON.parse] rejects. *)
Inductive Stored (E : Type) : Type :=
| StoredLeaderboard (rows : list E)
| StoredStats (v : SessionStats)
| StoredStreak (v : Streak)
| StoredText (v : string)
| Malformed.

Arguments StoredLeaderboard {E} rows.
Arguments StoredStats {E} v.
Arguments StoredStreak {E} v.
Arguments StoredText {E} v.
Arguments Malformed {E}.

(** [saveStored(key, value)]. *)
Definition saveStored {E} (key : string) (value : Stored E)
    (ls : gmap string (Stored E)) : gmap string (Stored E) :=
  <[key := value]> ls.

(** [loadStored(key, fallback)]: the fallback for an absent item and for
    one that does not parse, and otherwise the parsed value, whatever its
    shape. *)
Definition loadStored {E} (key : string) (fallback : Stored E)
    (ls : gmap string (Stored E)) : Stored E :=
  match ls !! key with
  | None | Some Malformed => fallback
  | Some v => v
  end.

(** What [loadStored] puts into a cell of the component's state.  The
    cells are typed by what the handlers write to them: a list of rows,
    the statistics, the streak.  Where the stored item parses to a value
    of another shape, [useState] holds that value, which has no
    counterpart in a typed cell; it is read here as the fallback.  A
    statement about what a component finds in storage that it has not
    written itself therefore assumes [wellShaped] of that storage. *)
Definition loadLeaderboard {E} (ls : gmap string (Stored E)) : list E :=
  match loadStored STORAGE_KEYS.LEADERBOARD (StoredLeaderboard []) ls with
  | StoredLeaderboard rows => rows
  | _ => []
  end.

Definition loadStats {E} (ls : gmap string (Stored E)) : SessionStats :=
  match loadStored STORAGE_KEYS.SESSION_STATS (StoredStats emptyStats) ls with
  | StoredStats v => v
  | _ => emptyStats
  end.

Definition loadStreak {E} (ls : gmap string (Stored E)) : Streak :=
  match loadStored STORAGE_KEYS.STREAK (StoredStreak emptyStreak) ls with
  | StoredStreak v => v
  | _ => emptyStreak
  end.

(** The items under which [loadStored] gives a typed cell exactly what the
    source gives it: under each of the three keys no item, one that does
    not parse, or one of the shape the component writes there. *)
Definition isLeaderboardItem {E} (v : Stored E) : bool :=
  match v with StoredLeaderboard _ | Malformed => true | _ => false end.

Definition isStatsItem {E} (v : Stored E) : bool :=
  match v with StoredStats _ | Malformed => true | _ => false end.

Definition isStreakItem {E} (v : Stored E) : bool :=
  match v with StoredStreak _ | Malformed => true | _ => false end.

Definition isTextItem {E} (v : Stored E) : bool :=
  match v with StoredText _ => true | _ => false end.

Definition itemIs {E} (shape : Stored E -> bool) (key : string)
    (ls : gmap string (Stored E)) : bool :=
  match ls !! key with
  | Some v => shape v
  | None => true
  end.

Definition wellShaped {E} (ls : gmap string (Stored E)) : bool :=
  itemIs isLeaderboardItem STORAGE_KEYS.LEADERBOARD ls
  && itemIs isStatsItem STORAGE_KEYS.SESSION_STATS ls
  && itemIs isStreakItem STORAGE_KEYS.STREAK ls.

(** [Array.prototype.findIndex], [-1] when no element satisfies [p]. *)
Fixpoint findIndexFrom {A} (p : A -> bool) (i : Z) (l : list A) : Z :=
  match l with
  | [] => -1
  | x :: l' => if p x then i else findIndexFrom p (i + 1) l'
  end.

Definition findIndex {A} (p : A -> bool) (l : list A) : Z :=
  findIndexFrom p 0 l.

(** [Array.prototype.sort((a, b) => b.score - a.score)], for rows whose
    score is read by [key]: the sort is stable, so its result is the one
    arrangement that is descending by score and keeps rows of equal score
    in their original order (see [sorted_stable_unique] below).  Computed
    here by insertion. *)
Fixpoint insertByScore {A} (key : A -> Z) (e : A) (l : list A) : list A :=
  match l with
  | [] => [e]
  | x :: l' =>
      if key e <? key x then x :: insertByScore key e l' else e :: x :: l'
  end.

Fixpoint sortByScoreDesc {A} (key : A -> Z) (l : list A) : list A :=
  match l with
  | [] => []
  | e :: l' => insertByScore key e (sortByScoreDesc key l')
  end.

(** A non-empty string is truthy. *)
Definition truthy (s : string) : bool :=
  match s with EmptyString => false | _ => true end.

(** [String.prototype.trim] and [slice(0, n)] on strings of characters
    below 256. *)
Fixpoint trimEnd (s : string) : string :=
  match s with
  | EmptyString => EmptyString
  | String c r =>
      match trimEnd r with
      | EmptyString => if isWhiteSpace c then EmptyString else String c EmptyString
      | r' => String c r'
      end
  end.

Definition trim (s : string) : string := trimEnd (trimStart s).

(** [String.prototype.toUpperCase] on a string of characters below 128,
    where it maps a to z and nothing else.  Above 127 the method maps
    further letters, and can lengthen the string, which this function does
    not follow: a statement that names the upper-cased text assumes
    [allAscii] of the input. *)
Definition isAscii (c : ascii) : bool := (nat_of_ascii c <? 128)%nat.

Fixpoint allAscii (s : string) : bool :=
  match s with
  | EmptyString => true
  | String c r => isAscii c && allAscii r
  end.

Definition upperChar (c : ascii) : ascii :=
  let n := nat_of_ascii c in
  if ((97 <=? n) && (n <=? 122))%nat then ascii_of_nat (n - 32) else c.

Fixpoint toUpperCase (s : string) : string :=
  match s with
  | EmptyString => EmptyString
  | String c r => String (upperChar c) (toUpperCase r)
  end.

Definition slice0 (n : nat) (s : string) : string := String.substring 0 n s.

(* ================================================================== *)
(** * The version with a local top-5 leaderboard *)

Module Local.

Record LeaderboardEntry := mkEntry {
  score : Z;
  date : Z;
  jumps : Z;
  time : Z
}.

(** The updater's list: [[...prev, entry].sort(...).slice(0, 5)]. *)
Definition withEntry (entry : LeaderboardEntry) (prev : list LeaderboardEntry)
    : list LeaderboardEntry :=
  take 5 (sortByScoreDesc score (prev ++ [entry])).

(** The predicate given to [findIndex]:
    [e.date === entry.date && e.score === entry.score]. *)
Definition sameDateAndScore (entry e : LeaderboardEntry) : bool :=
  (date e =? date entry) && (score e =? score entry).

Record State := mkState {
  prevShoulderRef : option float;
  lastJumpTimeRef : Z;
  jumpCountRef : Z;
  roundStartRef : Z;
  leaderboard : list LeaderboardEntry;
  sessionStats : SessionStats;
  streak : Streak;
  lastGameScore : option Z;          (* null at start *)
  newHighlight : Z;
  localStorage : gmap string (Stored LeaderboardEntry)
}.

Definition init (ls : gmap string (Stored LeaderboardEntry)) (now_ : Z) : State :=
  {| prevShoulderRef := None; lastJumpTimeRef := 0; jumpCountRef := 0;
     roundStartRef := now_;
     leaderboard := loadLeaderboard ls;
     sessionStats := loadStats ls;
     streak := loadStreak ls;
     lastGameScore := None; newHighlight := -1;
     localStorage := ls |}.

(** What one run of [handleGameOver] reads from outside: the engine's
    digits and the three readings of [Date.now()], for the round time, for
    the entry's [date] and for the next round's start. *)
Record GameOverEnv := mkEnv {
  digits : EngineDigits;
  nowRound : Z;
  nowEntry : Z;
  nowStart : Z
}.

Definition handleGameOver (env : GameOverEnv) (s : State) : State :=
  let score_ := readScore (digits env) in
  let roundTime := roundTimeOf (nowRound env) (roundStartRef s) in
  let jumps_ := jumpCountRef s in
  let entry := mkEntry score_ (nowEntry env) jumps_ (Math_round roundTime) in
  let updated := withEntry entry (leaderboard s) in
  let idx := findIndex (sameDateAndScore entry) updated in
  let stats := updateSessionStats jumps_ roundTime score_ (sessionStats s) in
  let newStreak := updateStreak score_ (streak s) in
  {| prevShoulderRef := prevShoulderRef s;
     lastJumpTimeRef := lastJumpTimeRef s;
     jumpCountRef := 0;
     roundStartRef := nowStart env;
     leaderboard := updated;
     sessionStats := stats;
     streak := newStreak;
     lastGameScore := Some score_;
     newHighlight := idx;
     localStorage :=
       saveStored STORAGE_KEYS.STREAK (StoredStreak newStreak)
         (saveStored STORAGE_KEYS.SESSION_STATS (StoredStats stats)
            (saveStored STORAGE_KEYS.LEADERBOARD (StoredLeaderboard updated)
               (localStorage s))) |}.

(** The timer armed with the highlight: [setNewHighlight(-1)] 3 s later. *)
Definition highlightTimeout (s : State) : State :=
  {| prevShoulderRef := prevShoulderRef s; lastJumpTimeRef := lastJumpTimeRef s;
     jumpCountRef := jumpCountRef s; roundStartRef := roundStartRef s;
     leaderboard := leaderboard s; sessionStats := sessionStats s;
     streak := streak s; lastGameScore := lastGameScore s;
     newHighlight := -1; localStorage := localStorage s |}.

Definition onResults (f : Frame) (s : State) : State * option JumpEvent :=
  match poseLandmarks f with
  | None => (s, None)
  | Some lms =>
      match avgShoulderY lms with
      | None => (s, None)
      | Some y =>
          let jumped :=
            match prevShoulderRef s with
            | Some prev => jumpTest (PrimFloat.sub prev y) (now f) (lastJumpTimeRef s)
            | None => false
            end in
          ({| prevShoulderRef := Some y;
              lastJumpTimeRef := if jumped then now f else lastJumpTimeRef s;
              jumpCountRef := if jumped then jumpCountRef s + 1 else jumpCountRef s;
              roundStartRef := roundStartRef s;
              leaderboard := leaderboard s; sessionStats := sessionStats s;
              streak := streak s; lastGameScore := lastGameScore s;
              newHighlight := newHighlight s; localStorage := localStorage s |},
           if jumped then Some (mkJump (now f)) else None)
      end
  end.

Definition resetLeaderboard (s : State) : State :=
  {| prevShoulderRef := prevShoulderRef s; lastJumpTimeRef := lastJumpTimeRef s;
     jumpCountRef := jumpCountRef s; roundStartRef := roundStartRef s;
     leaderboard := [];
     sessionStats := sessionStats s; streak := streak s;
     lastGameScore := lastGameScore s; newHighlight := newHighlight s;
     localStorage :=
       saveStored STORAGE_KEYS.LEADERBOARD (StoredLeaderboard [])
         (localStorage s) |}.

Definition resetStats (s : State) : State :=
  {| prevShoulderRef := prevShoulderRef s; lastJumpTimeRef := lastJumpTimeRef s;
     jumpCountRef := jumpCountRef s; roundStartRef := roundStartRef s;
     leaderboard := leaderboard s;
     sessionStats := emptyStats;
     streak := emptyStreak;
     lastGameScore := lastGameScore s; newHighlight := newHighlight s;
     localStorage :=
       saveStored STORAGE_KEYS.STREAK (StoredStreak emptyStreak)
         (saveStored STORAGE_KEYS.SESSION_STATS (StoredStats emptyStats)
            (localStorage s)) |}.

(** Everything that can happen to the component. *)
Inductive Event :=
| EvFrame (f : Frame)
| EvGameOver (env : GameOverEnv)
| EvHighlightTimeout
| EvResetLeaderboard
| EvResetStats.

Definition step (ev : Event) (s : State) : State * option JumpEvent :=
  match ev with
  | EvFrame f => onResults f s
  | EvGameOver env => (handleGameOver env s, None)
  | EvHighlightTimeout => (highlightTimeout s, None)
  | EvResetLeaderboard => (resetLeaderboard s, None)
  | EvResetStats => (resetStats s, None)
  end.

Definition run : list Event -> State -> State * list JumpEvent :=
  runWith step.

End Local.

(* ================================================================== *)
(** * The version with a player name, screens and a remote leaderboard *)

Module Arcade.

Inductive GAME_STATE := START | PLAYING | GAME_OVER.

(** The record pushed to the remote [leaderboard] collection. *)
Record FirebaseRecord := mkRecord {
  name : string;
  score : Z;
  timestamp : Z;
  jumps : Z;
  time : Z;
  gameMode : string
}.

Record State := mkState {
  prevShoulderRef : option float;
  lastJumpTimeRef : Z;
  jumpCountRef : Z;
  roundStartRef : Z;
  playerNameRef : string;
  isGameActiveRef : bool;
  playerName : string;
  gameState : GAME_STATE;
  inputName : string;
  leaderboard : list FirebaseRecord;
  sessionStats : SessionStats;
  streak : Streak;
  lastGameScore : option Z;
  localStorage : gmap string (Stored FirebaseRecord);
  pushed : list FirebaseRecord       (* writes issued to the remote store *)
}.

(** The stored player name, or the empty string when there is none. *)
Definition storedName (ls : gmap string (Stored FirebaseRecord)) : string :=
  match ls !! PLAYER_NAME_KEY with
  | Some (StoredText v) => v
  | _ => EmptyString
  end.

Definition init (ls : gmap string (Stored FirebaseRecord)) (now_ : Z) : State :=
  {| prevShoulderRef := None; lastJumpTimeRef := 0; jumpCountRef := 0;
     roundStartRef := now_;
     playerNameRef := storedName ls;
     isGameActiveRef := false;
     playerName := storedName ls;
     gameState := START;
     inputName := storedName ls;
     leaderboard := loadLeaderboard ls;
     sessionStats := loadStats ls;
     streak := loadStreak ls;
     lastGameScore := None;
     localStorage := ls;
     pushed := [] |}.

Definition handleNameSubmit (now_ : Z) (s : State) : State :=
  if truthy (trim (inputName s)) then
    let name_ := slice0 10 (toUpperCase (trim (inputName s))) in
    {| prevShoulderRef := prevShoulderRef s; lastJumpTimeRef := lastJumpTimeRef s;
       jumpCountRef := 0;
       roundStartRef := now_;
       playerNameRef := name_;
       isGameActiveRef := true;
       playerName := name_;
       gameState := PLAYING;
       inputName := inputName s;
       leaderboard := leaderboard s; sessionStats := sessionStats s;
       streak := streak s; lastGameScore := lastGameScore s;
       localStorage := <[PLAYER_NAME_KEY := StoredText name_]> (localStorage s);
       pushed := pushed s |}
  else s.

Definition handleRetry (now_ : Z) (s : State) : State :=
  {| prevShoulderRef := prevShoulderRef s; lastJumpTimeRef := lastJumpTimeRef s;
     jumpCountRef := 0;
     roundStartRef := now_;
     playerNameRef := playerNameRef s;
     isGameActiveRef := true;
     playerName := playerName s;
     gameState := PLAYING;
     inputName := inputName s;
     leaderboard := leaderboard s; sessionStats := sessionStats s;
     streak := streak s; lastGameScore := lastGameScore s;
     localStorage := localStorage s; pushed := pushed s |}.

Definition handleMainMenu (s : State) : State :=
  {| prevShoulderRef := prevShoulderRef s; lastJumpTimeRef := lastJumpTimeRef s;
     jumpCountRef := jumpCountRef s; roundStartRef := roundStartRef s;
     playerNameRef := EmptyString;
     isGameActiveRef := false;
     playerName := EmptyString;
     gameState := START;
     inputName := EmptyString;
     leaderboard := leaderboard s; sessionStats := sessionStats s;
     streak := streak s; lastGameScore := lastGameScore s;
     localStorage := delete PLAYER_NAME_KEY (localStorage s);
     pushed := pushed s |}.

(** What one run of [handleGameOver] reads from outside: the engine's
    digits and the two readings of [Date.now()], for the round time and for
    the pushed record's [timestamp]. *)
Record GameOverEnv := mkEnv {
  digits : EngineDigits;
  nowRound : Z;
  nowPush : Z
}.

(** The record that [handleGameOver] pushes for the round that ends in
    state [s]. *)
Definition roundRecord (env : GameOverEnv) (s : State) : FirebaseRecord :=
  {| name := playerNameRef s;
     score := readScore (digits env);
     timestamp := nowPush env;
     jumps := jumpCountRef s;
     time := Math_round (roundTimeOf (nowRound env) (roundStartRef s));
     gameMode := "arcade" |}.

Definition handleGameOver (env : GameOverEnv) (s : State) : State :=
  if negb (isGameActiveRef s) then s
  else
    let score_ := readScore (digits env) in
    let roundTime := roundTimeOf (nowRound env) (roundStartRef s) in
    let jumps_ := jumpCountRef s in
    let currentPlayer := playerNameRef s in
    let stats := updateSessionStats jumps_ roundTime score_ (sessionStats s) in
    let newStreak := updateStreak score_ (streak s) in
    {| prevShoulderRef := prevShoulderRef s; lastJumpTimeRef := lastJumpTimeRef s;
       jumpCountRef := jumpCountRef s; roundStartRef := roundStartRef s;
       playerNameRef := playerNameRef s;
       isGameActiveRef := false;
       playerName := playerName s;
       gameState := GAME_OVER;
       inputName := inputName s;
       leaderboard := leaderboard s;
       sessionStats := stats;
       streak := newStreak;
       lastGameScore := Some score_;
       localStorage :=
         saveStored STORAGE_KEYS.STREAK (StoredStreak newStreak)
           (saveStored STORAGE_KEYS.SESSION_STATS (StoredStats stats)
              (localStorage s));
       pushed :=
         if truthy currentPlayer then pushed s ++ [roundRecord env s]
         else pushed s |}.

(** [handleCrash], the callback the engine wrapper calls on game over,
    plays the sound and calls [handleGameOver]. *)
Definition handleCrash (env : GameOverEnv) (s : State) : State :=
  handleGameOver env s.

(** The listener on the remote top 10: [Object.values(data).sort(...)], or
    the empty list when the snapshot holds nothing. *)
Definition onValue (data : option (list FirebaseRecord)) (s : State) : State :=
  {| prevShoulderRef := prevShoulderRef s; lastJumpTimeRef := lastJumpTimeRef s;
     jumpCountRef := jumpCountRef s; roundStartRef := roundStartRef s;
     playerNameRef := playerNameRef s; isGameActiveRef := isGameActiveRef s;
     playerName := playerName s; gameState := gameState s;
     inputName := inputName s;
     leaderboard :=
       match data with
       | Some rows => sortByScoreDesc score rows
       | None => []
       end;
     sessionStats := sessionStats s; streak := streak s;
     lastGameScore := lastGameScore s;
     localStorage := localStorage s; pushed := pushed s |}.

Definition onResults (f : Frame) (s : State) : State * option JumpEvent :=
  match poseLandmarks f with
  | None => (s, None)
  | Some lms =>
      match avgShoulderY lms with
      | None => (s, None)
      | Some y =>
          let jumped :=
            match prevShoulderRef s with
            | Some prev =>
                isGameActiveRef s
                && jumpTest (PrimFloat.sub prev y) (now f) (lastJumpTimeRef s)
            | None => false
            end in
          ({| prevShoulderRef := Some y;
              lastJumpTimeRef := if jumped then now f else lastJumpTimeRef s;
              jumpCountRef := if jumped then jumpCountRef s + 1 else jumpCountRef s;
              roundStartRef := roundStartRef s;
              playerNameRef := playerNameRef s; isGameActiveRef := isGameActiveRef s;
              playerName := playerName s; gameState := gameState s;
              inputName := inputName s;
              leaderboard := leaderboard s; sessionStats := sessionStats s;
              streak := streak s; lastGameScore := lastGameScore s;
              localStorage := localStorage s; pushed := pushed s |},
           if jumped then Some (mkJump (now f)) else None)
      end
  end.

Definition setInputName (v : string) (s : State) : State :=
  {| prevShoulderRef := prevShoulderRef s; lastJumpTimeRef := lastJumpTimeRef s;
     jumpCountRef := jumpCountRef s; roundStartRef := roundStartRef s;
     playerNameRef := playerNameRef s; isGameActiveRef := isGameActiveRef s;
     playerName := playerName s; gameState := gameState s;
     inputName := v;
     leaderboard := leaderboard s; sessionStats := sessionStats s;
     streak := streak s; lastGameScore := lastGameScore s;
     localStorage := localStorage s; pushed := pushed s |}.

Definition resetLeaderboard (s : State) : State :=
  {| prevShoulderRef := prevShoulderRef s; lastJumpTimeRef := lastJumpTimeRef s;
     jumpCountRef := jumpCountRef s; roundStartRef := roundStartRef s;
     playerNameRef := playerNameRef s; isGameActiveRef := isGameActiveRef s;
     playerName := playerName s; gameState := gameState s;
     inputName := inputName s;
     leaderboard := [];
     sessionStats := sessionStats s; streak := streak s;
     lastGameScore := lastGameScore s;
     localStorage :=
       saveStored STORAGE_KEYS.LEADERBOARD (StoredLeaderboard [])
         (localStorage s);
     pushed := pushed s |}.

Definition resetStats (s : State) : State :=
  {| prevShoulderRef := prevShoulderRef s; lastJumpTimeRef := lastJumpTimeRef s;
     jumpCountRef := jumpCountRef s; roundStartRef := roundStartRef s;
     playerNameRef := playerNameRef s; isGameActiveRef := isGameActiveRef s;
     playerName := playerName s; gameState := gameState s;
     inputName := inputName s;
     leaderboard := leaderboard s;
     sessionStats := emptyStats;
     streak := emptyStreak;
     lastGameScore := lastGameScore s;
     localStorage :=
       saveStored STORAGE_KEYS.STREAK (StoredStreak emptyStreak)
         (saveStored STORAGE_KEYS.SESSION_STATS (StoredStats emptyStats)
            (localStorage s));
     pushed := pushed s |}.

(** Everything that can happen to the component. *)
Inductive Event :=
| EvInputChange (v : string)
| EvNameSubmit (now_ : Z)
| EvRetry (now_ : Z)
| EvMainMenu
| EvGameOver (env : GameOverEnv)
| EvFrame (f : Frame)
| EvSnapshot (data : option (list FirebaseRecord))
| EvResetLeaderboard
| EvResetStats.

(** The screen decides which controls exist: the name form is rendered on
    the START screen only, RETRY and MAIN MENU on the GAME_OVER screen
    only, and Clear only under a non-empty leaderboard. *)
Definition offered (ev : Event) (s : State) : bool :=
  match ev with
  | EvInputChange _ | EvNameSubmit _ =>
      match gameState s with START => true | _ => false end
  | EvRetry _ | EvMainMenu =>
      match gameState s with GAME_OVER => true | _ => false end
  | EvResetLeaderboard =>
      match leaderboard s with [] => false | _ => true end
  | _ => true
  end.

Definition handle (ev : Event) (s : State) : State * option JumpEvent :=
  match ev with
  | EvInputChange v => (setInputName v s, None)
  | EvNameSubmit now_ => (handleNameSubmit now_ s, None)
  | EvRetry now_ => (handleRetry now_ s, None)
  | EvMainMenu => (handleMainMenu s, None)
  | EvGameOver env => (handleCrash env s, None)
  | EvFrame f => onResults f s
  | EvSnapshot data => (onValue data s, None)
  | EvResetLeaderboard => (resetLeaderboard s, None)
  | EvResetStats => (resetStats s, None)
  end.

Definition step (ev : Event) (s : State) : State * option JumpEvent :=
  if offered ev s then handle ev s else (s, None).

Definition run : list Event -> State -> State * list JumpEvent :=
  runWith step.

(** The states the component can be in: those that a sequence of events
    leads to from a freshly mounted component. *)
Definition reachable (s : State) : Prop :=
  exists ls now_ evs, s = fst (run evs (init ls now_)).

End Arcade.

(* ================================================================== *)
(** * Vocabulary of the properties *)

(** Descending by score. *)
Definition descending {A} (key : A -> Z) (l : list A) : Prop :=
  StronglySorted (fun a b => key b <= key a) l.

(** Rows of equal score stand in [l'] in the order they have in [l]. *)
Definition tiesInOrder {A} (key : A -> Z) (l l' : list A) : Prop :=
  forall k, filter (fun e => key e = k) l' = filter (fun e => key e = k) l.

(** Any two events of the list, in the order emitted, lie more than 500 ms
    apart. *)
Definition spaced (evs : list JumpEvent) : Prop :=
  ForallOrdPairs (fun a b => 500 < t b - t a) evs.

(** The index [idx] reports where [entry] stands in [updated]: its
    0-based position, or [-1] when it is not there. *)
Definition reportsRankOf {A} (entry : A) (updated : list A) (idx : Z) : Prop :=
  if idx =? -1 then entry ∉ updated
  else 0 <= idx /\ updated !! Z.to_nat idx = Some entry.

(** The streak after a sequence of rounds, oldest score first. *)
Definition streakAfter (scores : list Z) (st : Streak) : Streak :=
  fold_left (fun st score => updateStreak score st) scores st.

(** What holds in every state the arcade component can be in: a round is
    active on the PLAYING screen only, a player name is set off the START
    screen, and the name cell agrees with the name state. *)
Definition arcadeInv (s : Arcade.State) : Prop :=
  (Arcade.isGameActiveRef s = true -> Arcade.gameState s = Arcade.PLAYING)
  /\ (Arcade.gameState s <> Arcade.START ->
      truthy (Arcade.playerNameRef s) = true)
  /\ Arcade.playerName s = Arcade.playerNameRef s.

(** [42.3], read as the nearest binary64 value. *)
Definition lit_42_3 : float := 0x1.5266666666666p+5%float.

(* ================================================================== *)
(** * Sample inputs *)

(** A round played from a fresh component: the name form is filled in and
    submitted at time 0. *)
Definition arcadeRoundStarted : Arcade.State :=
  fst (Arcade.run [Arcade.EvInputChange "bob"; Arcade.EvNameSubmit 0]
         (Arcade.init ∅ 0)).

(** The arcade component on its START screen after one frame at height
    0.5: no round is active. *)
Definition arcadeIdle : Arcade.State :=
  fst (Arcade.run [Arcade.EvFrame (frameAt 0.5 600)] (Arcade.init ∅ 0)).

(** A pose at height 0.5, the pose lost for a frame, then found again at
    height 0.25. *)
Definition beforeLoss : Frame := frameAt 0.5 1000.
Definition duringLoss : Frame := lostFrame 1100.
Definition afterLoss : Frame := frameAt 0.25 2000.

(** The specification's leaderboard [100, 90, 80, 70, 60], its rows dated
    1 to 5, and a new row of score 85. *)
Definition sampleBoard : list Local.LeaderboardEntry :=
  [Local.mkEntry 100 1 9 60; Local.mkEntry 90 2 8 50; Local.mkEntry 80 3 7 40;
   Local.mkEntry 70 4 6 30; Local.mkEntry 60 5 5 20].
Definition sampleEntry : Local.LeaderboardEntry := Local.mkEntry 85 6 6 42.

(** The engine reports game over twice within one millisecond, for a round
    of one jump and score 100 that began when the component was mounted. *)
Definition gameOverAt7s : Local.GameOverEnv :=
  Local.mkEnv (Some ["0"; "0"; "1"; "0"; "0"]) 7000 7000 7000.
Definition localRoundPlayed : Local.State :=
  fst (Local.run [Local.EvFrame (frameAt 0.5 1000);
                  Local.EvFrame (frameAt 0.25 2000)] (Local.init ∅ 0)).

(* ================================================================== *)
(** * The theme preference *)

(** [loadStored(STORAGE_KEYS.THEME, "dark")], in a cell typed as a
    text. *)
Definition loadTheme {E} (ls : gmap string (Stored E)) : string :=
  match loadStored STORAGE_KEYS.THEME (StoredText "dark") ls with
  | StoredText v => v
  | _ => "dark"
  end.


(* ================================================================== *)
(** * [timeAgo] *)

(** An integer in a template string: its decimal digits, with a minus
    sign when negative. *)
Definition stringOfZ (n : Z) : string := NilZero.string_of_int (Z.to_int n).

(** [timeAgo(timestamp)], with the reading of [Date.now()] as [now_].
    Timestamps are integer milliseconds; [Math.floor] of the quotient of
    two integers is their floor division (exact while the difference is
    below 2^53). *)
Definition timeAgo (now_ timestamp : Z) : string :=
  let diff := (now_ - timestamp) / 1000 in
  if diff <? 60 then "just now"
  else if diff <? 3600 then stringOfZ (diff / 60) +:+ "m ago"
  else if diff <? 86400 then stringOfZ (diff / 3600) +:+ "h ago"
  else stringOfZ (diff / 86400) +:+ "d ago".

(* ================================================================== *)
(** * Hooking the engine's [gameOver] *)

(** The function stored in [Runner.instance_.gameOver]: the engine's own,
    or a wrapper that calls a callback (when it has one) and then the
    function it replaced.  Only a wrapper carries [isPatched]. *)
Inductive GameOverFn (CB : Type) : Type :=
| engineGameOver
| patchedGameOver (callback : option CB) (originalGameOver : GameOverFn CB).

Arguments engineGameOver {CB}.
Arguments patchedGameOver {CB} callback originalGameOver.

Definition isPatched {CB} (fn : GameOverFn CB) : bool :=
  match fn with
  | engineGameOver => false
  | patchedGameOver _ _ => true
  end.

(** The callbacks that one call of the function runs, in order, before the
    engine's own code. *)
Fixpoint callGameOver {CB} (fn : GameOverFn CB) : list CB :=
  match fn with
  | engineGameOver => []
  | patchedGameOver cb original => option_list cb ++ callGameOver original
  end.

(** The interval callback [checkRunner] of [App.jsx] and of the version
    with the local leaderboard, on [window.Runner.instance_.gameOver]
    ([None] while there is no engine instance).  The flag tells whether
    [clearInterval] was called. *)
Definition checkRunnerInline {CB} (cb : CB) (w : option (GameOverFn CB))
    : option (GameOverFn CB) * bool :=
  match w with
  | None => (None, false)
  | Some originalGameOver =>
      (Some (if isPatched originalGameOver then originalGameOver
             else patchedGameOver (Some cb) originalGameOver),
       true)
  end.

(** [0.0001], read as the nearest binary64 value. *)
Definition lit_0_0001 : float := 0x1.a36e2eb1c432dp-14%float.

Module DinoGame.

Record Difficulty := mkDifficulty {
  speed : float;
  acceleration : float;
  gapCoefficient : float;
  maxObstacleDuplication : float
}.

(** The default value of the [difficulty] property. *)
Definition defaultDifficulty : Difficulty := mkDifficulty 10 lit_0_0001 1 1.

(** The four entries of [Runner.config] that the component writes. *)
Record Config := mkConfig {
  SPEED : float;
  ACCELERATION : float;
  GAP_COEFFICIENT : float;
  MAX_OBSTACLE_DUPLICATION : float
}.

(** The engine as the component sees it: its [gameOver] function, the
    arguments of the [setSpeed] calls made so far, and its configuration. *)
Record Runner (CB : Type) := mkRunner {
  gameOver : GameOverFn CB;
  setSpeedCalls : list float;
  config : Config
}.

Arguments mkRunner {CB} gameOver setSpeedCalls config.
Arguments gameOver {CB} r.
Arguments setSpeedCalls {CB} r.
Arguments config {CB} r.

(** One tick of the interval callback [checkRunner], for the properties
    [onGameOver] and [difficulty] of the effect that set the interval;
    the flag tells whether [clearInterval] was called. *)
Definition checkRunner {CB} (onGameOver : option CB) (difficulty : Difficulty)
    (w : option (Runner CB)) : option (Runner CB) * bool :=
  match w with
  | None => (None, false)
  | Some runner =>
      (Some (if isPatched (gameOver runner) then runner
             else
               {| gameOver := patchedGameOver onGameOver (gameOver runner);
                  setSpeedCalls := setSpeedCalls runner ++ [speed difficulty];
                  config :=
                    {| SPEED := speed difficulty;
                       ACCELERATION := acceleration difficulty;
                       GAP_COEFFICIENT := gapCoefficient difficulty;
                       MAX_OBSTACLE_DUPLICATION :=
                         maxObstacleDuplication difficulty |} |}),
       true)
  end.

(** Ticks in sequence, each with the properties of its own effect. *)
Definition ticks {CB} (props : list (option CB * Difficulty))
    (w : option (Runner CB)) : option (Runner CB) :=
  fold_left (fun w p => fst (checkRunner (fst p) (snd p) w)) props w.

End DinoGame.

(* ================================================================== *)
(** * Further vocabulary *)

(** No sample of the frames rises more than the threshold above the
    sample before it; [prev] is the sample stored when the frames begin. *)
Fixpoint gentle (prev : option float) (fs : list Frame) : Prop :=
  match fs with
  | [] => True
  | f :: fs' =>
      match sampleOf f with
      | None => gentle prev fs'
      | Some y =>
          match prev with
          | Some p => PrimFloat.ltb lit_0_04 (PrimFloat.sub p y) = false
          | None => True
          end
          /\ gentle (Some y) fs'
      end
  end.

(** The events that begin a round. *)
Definition isRoundStart (ev : Arcade.Event) : bool :=
  match ev with
  | Arcade.EvNameSubmit _ | Arcade.EvRetry _ => true
  | _ => false
  end.

Definition isLower (c : ascii) : bool :=
  let n := nat_of_ascii c in ((97 <=? n) && (n <=? 122))%nat.

(** No character of the string is a lower-case letter. *)
Fixpoint noLower (s : string) : bool :=
  match s with
  | EmptyString => true
  | String c r => negb (isLower c) && noLower r
  end.

(** A player name as [handleNameSubmit] makes it. *)
Definition wellFormedName (n : string) : Prop :=
  (1 <= String.length n <= 10)%nat /\ noLower n = true.

(** The decimal value of an array of one-digit strings, as the engine's
    distance meter holds it; [None] when an element is not one digit. *)
Definition digitOf (d : string) : option Z :=
  match d with
  | String c EmptyString => digitValue c
  | _ => None
  end.

Fixpoint decimalValue (acc : Z) (ds : list string) : option Z :=
  match ds with
  | [] => Some acc
  | d :: ds' =>
      match digitOf d with
      | Some v => decimalValue (10 * acc + v) ds'
      | None => None
      end
  end.

(** The values [current] takes after each round of a sequence. *)
Fixpoint currentHistory (scores : list Z) (st : Streak) : list Z :=
  match scores with
  | [] => []
  | score :: rest =>
      current (updateStreak score st)
      :: currentHistory rest (updateStreak score st)
  end.

(** The number of game-over events in a sequence. *)
Definition isGameOver (ev : Local.Event) : bool :=
  match ev with Local.EvGameOver _ => true | _ => false end.

Definition gameOvers (evs : list Local.Event) : nat :=
  length (List.filter isGameOver evs).

(** What [handleGameOver] writes to the remote store for a round: the
    game mode, a well-formed player name and a jump count. *)
Definition wellFormedRecord (r : Arcade.FirebaseRecord) : Prop :=
  Arcade.gameMode r = "arcade"
  /\ wellFormedName (Arcade.name r)
  /\ 0 <= Arcade.jumps r.

(** Further facts of every state the arcade component can be in. *)
Definition arcadeFacts (s : Arcade.State) : Prop :=
  (Arcade.isGameActiveRef s = true <-> Arcade.gameState s = Arcade.PLAYING)
  /\ 0 <= Arcade.jumpCountRef s
  /\ (Arcade.gameState s <> Arcade.START ->
      wellFormedName (Arcade.playerNameRef s))
  /\ Forall wellFormedRecord (Arcade.pushed s)
  /\ loadStats (Arcade.localStorage s) = Arcade.sessionStats s
  /\ loadStreak (Arcade.localStorage s) = Arcade.streak s
  /\ Arcade.storedName (Arcade.localStorage s) = Arcade.playerNameRef s.

(** The same for the version with the local leaderboard: the stored
    copies agree with the state. *)
Definition localFacts (s : Local.State) : Prop :=
  loadLeaderboard (Local.localStorage s) = Local.leaderboard s
  /\ loadStats (Local.localStorage s) = Local.sessionStats s
  /\ loadStreak (Local.localStorage s) = Local.streak s
  /\ 0 <= Local.jumpCountRef s.

(** The round of [arcadeRoundStarted] ended by the engine with score 150. *)
Definition arcadeRoundEnded : Arcade.State :=
  fst (Arcade.run [Arcade.EvInputChange "bob"; Arcade.EvNameSubmit 0;
                   Arcade.EvGameOver
                     (Arcade.mkEnv (Some ["1"; "5"; "0"]) 9000 9000)]
         (Arcade.init ∅ 0)).

(** Every character of the string is white space. *)
Fixpoint allWhiteSpace (s : string) : bool :=
  match s with
  | EmptyString => true
  | String c r => isWhiteSpace c && allWhiteSpace r
  end.

(** The sample the detector holds after the frames: the last one they
    carry, or [prev] when they carry none. *)
Definition lastSample (prev : option float) (fs : list Frame) : option float :=
  fold_left (fun p f => match sampleOf f with Some y => Some y | None => p end)
    fs prev.

(* ================================================================== *)
(** * Storage a component can be mounted on *)

(** The arcade component also keeps the player name, as a plain text
    under its own key: [getItem] returns that text, or null. *)
Definition arcadeWellShaped
    (ls : gmap string (Stored Arcade.FirebaseRecord)) : bool :=
  wellShaped ls && itemIs isTextItem PLAYER_NAME_KEY ls.

(** The engine's digits spell a score that [parseInt] returns exactly: a
    number below 2^53 in absolute value. *)
Definition exactScore (digits_ : EngineDigits) : bool :=
  Z.abs (readScore digits_) <? 2 ^ 53.

Definition arcadeExactScore (ev : Arcade.Event) : bool :=
  match ev with
  | Arcade.EvGameOver env => exactScore (Arcade.digits env)
  | _ => true
  end.

Definition localExactScore (ev : Local.Event) : bool :=
  match ev with
  | Local.EvGameOver env => exactScore (Local.digits env)
  | _ => true
  end.

(** A storage left by an earlier session of one round, and the events of
    a further round on it. *)
Definition earlierSession {E} : gmap string (Stored E) :=
  <[STORAGE_KEYS.STREAK := StoredStreak (mkStreak 1 1 150)]>
    (<[STORAGE_KEYS.SESSION_STATS := StoredStats (mkStats 6 lit_42_3 150 1)]> ∅).

Definition arcadeSecondSession : Arcade.State :=
  fst (Arcade.run [Arcade.EvInputChange "bob"; Arcade.EvNameSubmit 0;
                   Arcade.EvGameOver
                     (Arcade.mkEnv (Some ["2"; "0"; "0"]) 9000 9000)]
         (Arcade.init earlierSession 0)).

Definition localSecondSession : Local.State :=
  fst (Local.run [Local.EvGameOver gameOverAt7s] (Local.init earlierSession 0)).

(* ================================================================== *)
(** * Facts about the stable sort *)

Section SortFacts.
Context {A : Type} (key : A -> Z).

Lemma insertByScore_perm e l : insertByScore key e l ≡ₚ e :: l.
Proof.
  induction l as [|x l IH]; simpl; [done|].
  destruct (key e <? key x); [|done].
  rewrite IH. apply Permutation_swap.
Qed.

Lemma sortByScoreDesc_perm l : sortByScoreDesc key l ≡ₚ l.
Proof.
  induction l as [|e l IH]; simpl; [done|].
  by rewrite insertByScore_perm, IH.
Qed.

Lemma insertByScore_descending e l :
  descending key l -> descending key (insertByScore key e l).
Proof.
  unfold descending. induction l as [|x l IH]; simpl; intros Hs.
  - repeat constructor.
  - apply StronglySorted_inv in Hs as [Hl Hx].
    destruct (key e <? key x) eqn:E.
    + apply Z.ltb_lt in E. constructor; [by apply IH|].
      rewrite insertByScore_perm. constructor; [lia | done].
    + apply Z.ltb_ge in E. constructor; [by constructor|].
      constructor; [done|].
      eapply Forall_impl; [exact Hx|]. simpl. intros; lia.
Qed.

Lemma sortByScoreDesc_descending l : descending key (sortByScoreDesc key l).
Proof.
  induction l as [|e l IH]; simpl; [constructor|].
  by apply insertByScore_descending.
Qed.

Lemma filter_insertByScore k e l :
  filter (fun a => key a = k) (insertByScore key e l)
  = filter (fun a => key a = k) (e :: l).
Proof.
  induction l as [|x l IH]; simpl; [done|].
  destruct (key e <? key x) eqn:E; [|done].
  apply Z.ltb_lt in E.
  rewrite (filter_cons _ x (insertByScore _ _ _)), IH.
  rewrite !(filter_cons _ e), (filter_cons _ x l).
  destruct (decide (key x = k)), (decide (key e = k)); try done; lia.
Qed.

Lemma sortByScoreDesc_stable l : tiesInOrder key l (sortByScoreDesc key l).
Proof.
  intros k. induction l as [|e l IH]; simpl; [done|].
  rewrite filter_insertByScore, !(filter_cons _ e), IH. done.
Qed.

(** Descending order and the order of ties determine the arrangement:
    whatever algorithm the engine's stable sort runs, it returns
    [sortByScoreDesc]. *)
Lemma sorted_stable_unique l1 l2 :
  descending key l1 -> descending key l2 ->
  (forall k, filter (fun e => key e = k) l1 = filter (fun e => key e = k) l2) ->
  l1 = l2.
Proof.
  unfold descending. revert l2.
  induction l1 as [|a l1 IH]; intros l2 H1 H2 Hf.
  - destruct l2 as [|b l2]; [done|].
    specialize (Hf (key b)). rewrite filter_cons_True in Hf by done.
    discriminate.
  - destruct l2 as [|b l2].
    { specialize (Hf (key a)). rewrite filter_cons_True in Hf by done.
      discriminate. }
    apply StronglySorted_inv in H1 as [H1 Ha].
    apply StronglySorted_inv in H2 as [H2 Hb].
    assert (Hin : forall (x : A) (l l' : list A),
               (forall k, filter (fun e => key e = k) l
                          = filter (fun e => key e = k) l') ->
               x ∈ l -> x ∈ l').
    { intros x l l' Hk Hx.
      assert (Hx' : x ∈ filter (fun e => key e = key x) l)
        by (apply list_elem_of_filter; done).
      rewrite Hk in Hx'. by apply list_elem_of_filter in Hx' as [_ ?]. }
    assert (Hab : key a = key b).
    { assert (Ha2 : a ∈ b :: l2) by (apply (Hin a (a :: l1)); [done|left]).
      assert (Hb1 : b ∈ a :: l1)
        by (apply (Hin b (b :: l2)); [intros k; by rewrite Hf|left]).
      rewrite Forall_forall in Ha, Hb.
      apply elem_of_cons in Ha2 as [->|Ha2]; [done|].
      apply elem_of_cons in Hb1 as [->|Hb1]; [done|].
      apply Hb in Ha2. apply Ha in Hb1. lia. }
    assert (a = b) as ->.
    { specialize (Hf (key a)).
      rewrite filter_cons_True in Hf by done.
      rewrite filter_cons_True in Hf by done.
      congruence. }
    f_equal. apply IH; [done..|].
    intros k. specialize (Hf k). rewrite !(filter_cons _ b) in Hf.
    destruct (decide (key b = k)); congruence.
Qed.

Lemma sortByScoreDesc_sorted_input l :
  descending key l -> sortByScoreDesc key l = l.
Proof.
  intros Hl. apply sorted_stable_unique;
    [apply sortByScoreDesc_descending | done | apply sortByScoreDesc_stable].
Qed.
End SortFacts.

(* ================================================================== *)
(** * Session statistics *)

Lemma Arcade_handleGameOver_inactive env s :
  Arcade.isGameActiveRef s = false -> Arcade.handleGameOver env s = s.
Proof. intros H. unfold Arcade.handleGameOver. by rewrite H. Qed.

Lemma lookup_saved_stats {E} (ls : gmap string (Stored E)) streak_ stats :
  saveStored STORAGE_KEYS.STREAK (StoredStreak streak_)
    (saveStored STORAGE_KEYS.SESSION_STATS (StoredStats stats) ls)
  !! STORAGE_KEYS.SESSION_STATS = Some (StoredStats stats).
Proof.
  unfold saveStored. rewrite lookup_insert_ne by done.
  apply lookup_insert_eq.
Qed.

Lemma lookup_saved_streak {E} (ls : gmap string (Stored E)) streak_ :
  saveStored STORAGE_KEYS.STREAK (StoredStreak streak_) ls
  !! STORAGE_KEYS.STREAK = Some (StoredStreak streak_).
Proof. apply lookup_insert_eq. Qed.

(** C3.  The statistics updater adds the round's jumps, time and score to
    the totals and counts one more round, whatever the totals were; from
    empty statistics a round of score 150, 6 jumps and 42.3 s gives
    {6, 42.3, 150, 1}.  [handleGameOver] applies it to the round it ends,
    with the jump counter, the elapsed seconds and the score read from the
    engine, and stores the same value it puts in the state. *)
Theorem stats_applyRound :
  (forall prev score jumps roundTime,
     let st := updateSessionStats jumps roundTime score prev in
     totalJumps st = totalJumps prev + jumps
     /\ totalPlayTime st = PrimFloat.add (totalPlayTime prev) roundTime
     /\ totalScore st = totalScore prev + score
     /\ roundsPlayed st = roundsPlayed prev + 1)
  /\ roundTimeOf 42300 0 = lit_42_3
  /\ updateSessionStats 6 lit_42_3 150 emptyStats = mkStats 6 lit_42_3 150 1
  /\ (forall env s,
        Arcade.isGameActiveRef s = true ->
        let s' := Arcade.handleGameOver env s in
        let st := updateSessionStats (Arcade.jumpCountRef s)
                    (roundTimeOf (Arcade.nowRound env) (Arcade.roundStartRef s))
                    (readScore (Arcade.digits env)) (Arcade.sessionStats s) in
        Arcade.sessionStats s' = st
        /\ Arcade.localStorage s' !! STORAGE_KEYS.SESSION_STATS
           = Some (StoredStats st))
  /\ (forall env s,
        let s' := Local.handleGameOver env s in
        let st := updateSessionStats (Local.jumpCountRef s)
                    (roundTimeOf (Local.nowRound env) (Local.roundStartRef s))
                    (readScore (Local.digits env)) (Local.sessionStats s) in
        Local.sessionStats s' = st
        /\ Local.localStorage s' !! STORAGE_KEYS.SESSION_STATS
           = Some (StoredStats st)).
Proof.
  split; [by intros [] ? ? ?|].
  split; [reflexivity|]. split; [reflexivity|]. split.
  - intros env s Hact. unfold Arcade.handleGameOver. rewrite Hact. simpl.
    split; [done | apply lookup_saved_stats].
  - intros env s. simpl. split; [done | apply lookup_saved_stats].
Qed.

Lemma stats_applyRound_witness :
  Arcade.sessionStats
    (Arcade.handleGameOver
       (Arcade.mkEnv (Some ["0"; "0"; "1"; "5"; "0"]) 42300 42300)
       arcadeRoundStarted)
  = mkStats 0 lit_42_3 150 1.
Proof.
  destruct stats_applyRound as (_ & _ & _ & H & _).
  destruct (H (Arcade.mkEnv (Some ["0"; "0"; "1"; "5"; "0"]) 42300 42300)
              arcadeRoundStarted eq_refl) as [-> _].
  reflexivity.
Defined.

(* ================================================================== *)
(** * Streak *)

(** C4.  The streak updater: when the last score is 0 or the new score
    exceeds it, [current] grows by one and [best] becomes the larger of
    [best] and the new [current]; otherwise [current] becomes 0 and [best]
    stays; [lastScore] becomes the new score either way.  From {2, 3, 80}
    a score of 90 gives {3, 3, 90} and a score of 50 gives {0, 3, 50}. *)
Theorem streak_applyRound :
  (forall prev score,
     (lastScore prev = 0 \/ lastScore prev < score ->
      current (updateStreak score prev) = current prev + 1
      /\ best (updateStreak score prev)
         = Z.max (best prev) (current (updateStreak score prev)))
     /\ (~ (lastScore prev = 0 \/ lastScore prev < score) ->
         current (updateStreak score prev) = 0
         /\ best (updateStreak score prev) = best prev)
     /\ lastScore (updateStreak score prev) = score)
  /\ updateStreak 90 (mkStreak 2 3 80) = mkStreak 3 3 90
  /\ updateStreak 50 (mkStreak 2 3 80) = mkStreak 0 3 50.
Proof.
  split; [|split; reflexivity].
  intros prev score. unfold updateStreak.
  destruct (lastScore prev =? 0) eqn:E0; simpl.
  - apply Z.eqb_eq in E0.
    split; [done|]. split; [|done]. intros Hn. destruct Hn. by left.
  - apply Z.eqb_neq in E0. destruct (lastScore prev <? score) eqn:E1; simpl.
    + apply Z.ltb_lt in E1.
      split; [done|]. split; [|done]. intros Hn. destruct Hn. by right.
    + apply Z.ltb_ge in E1.
      split; [intros [?|?]; lia|]. split; done.
Qed.

Lemma streak_applyRound_witness :
  (current (updateStreak 90 (mkStreak 2 3 80)) = 3
   /\ best (updateStreak 90 (mkStreak 2 3 80)) = 3)
  /\ (current (updateStreak 50 (mkStreak 2 3 80)) = 0
      /\ best (updateStreak 50 (mkStreak 2 3 80)) = 3).
Proof.
  destruct streak_applyRound as [H _]. split.
  - destruct (H (mkStreak 2 3 80) 90) as ([Hc Hb] & _ & _).
    + right. simpl. lia.
    + rewrite Hb, Hc. done.
  - destruct (H (mkStreak 2 3 80) 50) as (_ & [Hc Hb] & _).
    + simpl. intros [?|?]; lia.
    + rewrite Hb, Hc. done.
Defined.

Lemma updateStreak_invariant score st :
  0 <= current st <= best st ->
  0 <= current (updateStreak score st) <= best (updateStreak score st).
Proof.
  unfold updateStreak.
  destruct ((lastScore st =? 0) || (lastScore st <? score)); simpl; lia.
Qed.

Lemma updateStreak_best_mono score st :
  best st <= best (updateStreak score st).
Proof.
  unfold updateStreak.
  destruct ((lastScore st =? 0) || (lastScore st <? score)); simpl; lia.
Qed.

Lemma streakAfter_invariant scores st :
  0 <= current st <= best st ->
  0 <= current (streakAfter scores st) <= best (streakAfter scores st).
Proof.
  revert st. induction scores as [|score scores IH]; intros st Hst; [done|].
  simpl. apply IH. by apply updateStreak_invariant.
Qed.

Lemma streakAfter_best_mono scores st :
  best st <= best (streakAfter scores st).
Proof.
  revert st. induction scores as [|score scores IH]; intros st; simpl; [lia|].
  etrans; [apply (updateStreak_best_mono score)|apply IH].
Qed.

(** C6.  Starting from {0, 0, 0}, after every sequence of rounds [best] is
    at least [current], and playing further rounds never lowers [best]. *)
Theorem streak_best_invariant :
  forall scores,
    let st := streakAfter scores emptyStreak in
    current st <= best st
    /\ (forall score, best st <= best (updateStreak score st))
    /\ (forall more, best st <= best (streakAfter (scores ++ more) emptyStreak)).
Proof.
  intros scores st. split; [|split].
  - apply (streakAfter_invariant scores emptyStreak). simpl. lia.
  - intros score. apply updateStreak_best_mono.
  - intros more. subst st. unfold streakAfter. rewrite fold_left_app.
    apply streakAfter_best_mono.
Qed.

(* ================================================================== *)
(** * The jump detector *)

(** Splits a goal about [onResults f s] by what the frame carries and by
    whether a previous sample is stored. *)
Ltac detector_cases f s :=
  unfold Basic.onResults, Local.onResults, Arcade.onResults, sampleOf in *;
  destruct (poseLandmarks f) as [?lms|]; simpl in *;
  [ destruct (avgShoulderY _) as [?y|]; simpl in * | ];
  try discriminate; try done.

Lemma jumpTest_cooldown diff now_ last :
  jumpTest diff now_ last = true -> 500 < now_ - last.
Proof. unfold jumpTest. intros [_ H]%andb_true_iff. by apply Z.ltb_lt. Qed.

Lemma jumpTest_iff diff now_ last :
  jumpTest diff now_ last = true
  <-> PrimFloat.ltb lit_0_04 diff = true /\ 500 < now_ - last.
Proof. unfold jumpTest. by rewrite andb_true_iff, Z.ltb_lt. Qed.

(** ** [src/App.jsx] *)

Lemma Basic_onResults_lost f s :
  sampleOf f = None -> Basic.onResults f s = (s, None).
Proof. intros H. detector_cases f s. Qed.

Lemma Basic_onResults_first f s :
  Basic.prevShoulderRef s = None -> snd (Basic.onResults f s) = None.
Proof. intros H. detector_cases f s. by rewrite H. Qed.

Lemma Basic_onResults_sample f s y p :
  sampleOf f = Some y -> Basic.prevShoulderRef s = Some p ->
  snd (Basic.onResults f s)
  = if jumpTest (PrimFloat.sub p y) (now f) (Basic.lastJumpTimeRef s)
    then Some (mkJump (now f)) else None.
Proof. intros H Hp. detector_cases f s. rewrite Hp. by simplify_eq. Qed.

Lemma Basic_onResults_step f s :
  match snd (Basic.onResults f s) with
  | Some j => t j = now f /\ 500 < t j - Basic.lastJumpTimeRef s
              /\ Basic.lastJumpTimeRef (fst (Basic.onResults f s)) = t j
  | None => Basic.lastJumpTimeRef (fst (Basic.onResults f s)) = Basic.lastJumpTimeRef s
  end.
Proof.
  detector_cases f s.
  destruct (Basic.prevShoulderRef s) as [p|]; [|done].
  destruct (jumpTest _ _ _) eqn:E; simpl; [|done].
  apply jumpTest_cooldown in E. done.
Qed.

Lemma Basic_onResults_prev f s :
  Basic.prevShoulderRef (fst (Basic.onResults f s))
  = match sampleOf f with Some y => Some y | None => Basic.prevShoulderRef s end.
Proof. detector_cases f s. Qed.

(** ** The version with a local leaderboard *)

Lemma Local_onResults_lost f s :
  sampleOf f = None -> Local.onResults f s = (s, None).
Proof. intros H. detector_cases f s. Qed.

Lemma Local_onResults_first f s :
  Local.prevShoulderRef s = None -> snd (Local.onResults f s) = None.
Proof. intros H. detector_cases f s. by rewrite H. Qed.

Lemma Local_onResults_sample f s y p :
  sampleOf f = Some y -> Local.prevShoulderRef s = Some p ->
  snd (Local.onResults f s)
  = if jumpTest (PrimFloat.sub p y) (now f) (Local.lastJumpTimeRef s)
    then Some (mkJump (now f)) else None.
Proof. intros H Hp. detector_cases f s. rewrite Hp. by simplify_eq. Qed.

Lemma Local_onResults_step f s :
  match snd (Local.onResults f s) with
  | Some j => t j = now f /\ 500 < t j - Local.lastJumpTimeRef s
              /\ Local.lastJumpTimeRef (fst (Local.onResults f s)) = t j
  | None => Local.lastJumpTimeRef (fst (Local.onResults f s)) = Local.lastJumpTimeRef s
  end.
Proof.
  detector_cases f s.
  destruct (Local.prevShoulderRef s) as [p|]; [|done].
  destruct (jumpTest _ _ _) eqn:E; simpl; [|done].
  apply jumpTest_cooldown in E. done.
Qed.

Lemma Local_onResults_prev f s :
  Local.prevShoulderRef (fst (Local.onResults f s))
  = match sampleOf f with Some y => Some y | None => Local.prevShoulderRef s end.
Proof. detector_cases f s. Qed.

(** ** The version with the active-round flag *)

Lemma Arcade_onResults_lost f s :
  sampleOf f = None -> Arcade.onResults f s = (s, None).
Proof. intros H. detector_cases f s. Qed.

Lemma Arcade_onResults_first f s :
  Arcade.prevShoulderRef s = None -> snd (Arcade.onResults f s) = None.
Proof. intros H. detector_cases f s. by rewrite H. Qed.

Lemma Arcade_onResults_sample f s y p :
  sampleOf f = Some y -> Arcade.prevShoulderRef s = Some p ->
  snd (Arcade.onResults f s)
  = if Arcade.isGameActiveRef s
       && jumpTest (PrimFloat.sub p y) (now f) (Arcade.lastJumpTimeRef s)
    then Some (mkJump (now f)) else None.
Proof. intros H Hp. detector_cases f s. rewrite Hp. by simplify_eq. Qed.

Lemma Arcade_onResults_step f s :
  match snd (Arcade.onResults f s) with
  | Some j => t j = now f /\ 500 < t j - Arcade.lastJumpTimeRef s
              /\ Arcade.lastJumpTimeRef (fst (Arcade.onResults f s)) = t j
  | None => Arcade.lastJumpTimeRef (fst (Arcade.onResults f s)) = Arcade.lastJumpTimeRef s
  end.
Proof.
  detector_cases f s.
  destruct (Arcade.prevShoulderRef s) as [p|]; [|done].
  destruct (Arcade.isGameActiveRef s); simpl; [|done].
  destruct (jumpTest _ _ _) eqn:E; simpl; [|done].
  apply jumpTest_cooldown in E. done.
Qed.

Lemma Arcade_onResults_prev f s :
  Arcade.prevShoulderRef (fst (Arcade.onResults f s))
  = match sampleOf f with Some y => Some y | None => Arcade.prevShoulderRef s end.
Proof. detector_cases f s. Qed.

(** ** Runs *)

Section Runs.
Context {S Ev : Type} (step : Ev -> S -> S * option JumpEvent).

Lemma runWith_cons ev evs s :
  runWith step (ev :: evs) s
  = (fst (runWith step evs (fst (step ev s))),
     option_list (snd (step ev s)) ++ snd (runWith step evs (fst (step ev s)))).
Proof.
  simpl. destruct (step ev s) as [s1 j]. simpl.
  by destruct (runWith step evs s1).
Qed.

Lemma runWith_app evs1 evs2 s :
  runWith step (evs1 ++ evs2) s
  = (fst (runWith step evs2 (fst (runWith step evs1 s))),
     snd (runWith step evs1 s)
     ++ snd (runWith step evs2 (fst (runWith step evs1 s)))).
Proof.
  revert s. induction evs1 as [|ev evs1 IH]; intros s.
  - simpl. by destruct (runWith step evs2 s).
  - rewrite <- app_comm_cons, !runWith_cons, IH. simpl.
    by rewrite app_assoc.
Qed.

(** Inputs that keep a property of the state and emit nothing do so as a
    sequence. *)
Lemma runWith_quiet (P : S -> Prop) (Q : Ev -> Prop) :
  (forall ev s, Q ev -> P s -> P (fst (step ev s)) /\ snd (step ev s) = None) ->
  forall evs s, Forall Q evs -> P s ->
    P (fst (runWith step evs s)) /\ snd (runWith step evs s) = [].
Proof.
  intros Hstep evs. induction evs as [|ev evs IH]; intros s HQ HP; [done|].
  apply Forall_cons in HQ as [Hev HQ].
  destruct (Hstep ev s Hev HP) as [HP1 Hnone].
  rewrite runWith_cons, Hnone. simpl. by apply IH.
Qed.

(** The refractory period, for any handler that emits only more than
    500 ms after the time it has recorded, and records the time of what it
    emits. *)
Context (last : S -> Z).
Hypothesis step_refractory : forall ev s,
  match snd (step ev s) with
  | Some j => 500 < t j - last s /\ last (fst (step ev s)) = t j
  | None => last (fst (step ev s)) = last s
  end.

Lemma runWith_spaced evs s :
  Forall (fun j => 500 < t j - last s) (snd (runWith step evs s))
  /\ spaced (snd (runWith step evs s)).
Proof.
  revert s. induction evs as [|ev evs IH]; intros s.
  - simpl. split; constructor.
  - rewrite runWith_cons. simpl.
    specialize (step_refractory ev s). specialize (IH (fst (step ev s))).
    destruct IH as [IHall IHsp].
    destruct (snd (step ev s)) as [j|]; simpl.
    + destruct step_refractory as [Hj Hlast]. rewrite Hlast in IHall.
      split.
      * constructor; [done|].
        eapply Forall_impl; [exact IHall|]. simpl. intros; lia.
      * by constructor.
    + rewrite step_refractory in IHall. done.
Qed.
End Runs.

Lemma Local_step_refractory ev s :
  match snd (Local.step ev s) with
  | Some j => 500 < t j - Local.lastJumpTimeRef s
              /\ Local.lastJumpTimeRef (fst (Local.step ev s)) = t j
  | None => Local.lastJumpTimeRef (fst (Local.step ev s)) = Local.lastJumpTimeRef s
  end.
Proof.
  destruct ev; simpl; try done.
  pose proof (Local_onResults_step f s) as H.
  destruct (snd (Local.onResults f s)); [by destruct H as (_ & ? & ?) | done].
Qed.

Lemma Arcade_step_refractory ev s :
  match snd (Arcade.step ev s) with
  | Some j => 500 < t j - Arcade.lastJumpTimeRef s
              /\ Arcade.lastJumpTimeRef (fst (Arcade.step ev s)) = t j
  | None => Arcade.lastJumpTimeRef (fst (Arcade.step ev s)) = Arcade.lastJumpTimeRef s
  end.
Proof.
  unfold Arcade.step. destruct (Arcade.offered ev s); [|done].
  destruct ev; simpl; try done.
  - unfold Arcade.handleNameSubmit. by destruct (truthy _).
  - unfold Arcade.handleCrash, Arcade.handleGameOver.
    by destruct (Arcade.isGameActiveRef s).
  - pose proof (Arcade_onResults_step f s) as H.
    destruct (snd (Arcade.onResults f s)); [by destruct H as (_ & ? & ?) | done].
Qed.

Lemma Basic_step_refractory f s :
  match snd (Basic.onResults f s) with
  | Some j => 500 < t j - Basic.lastJumpTimeRef s
              /\ Basic.lastJumpTimeRef (fst (Basic.onResults f s)) = t j
  | None => Basic.lastJumpTimeRef (fst (Basic.onResults f s)) = Basic.lastJumpTimeRef s
  end.
Proof.
  pose proof (Basic_onResults_step f s) as H.
  destruct (snd (Basic.onResults f s)); [by destruct H as (_ & ? & ?) | done].
Qed.

(** C7.  In every version, a frame that comes 500 ms or less after the
    recorded jump time emits nothing, an emitted event carries the frame's
    time and becomes the recorded jump time, and so in every run, from
    every state, any two emitted events lie more than 500 ms apart. *)
Theorem cooldown_spaces_jumps :
  (forall f s, now f - Basic.lastJumpTimeRef s <= 500 ->
     snd (Basic.onResults f s) = None)
  /\ (forall f s, now f - Local.lastJumpTimeRef s <= 500 ->
        snd (Local.onResults f s) = None)
  /\ (forall f s, now f - Arcade.lastJumpTimeRef s <= 500 ->
        snd (Arcade.onResults f s) = None)
  /\ (forall f s j, snd (Basic.onResults f s) = Some j ->
        t j = now f /\ Basic.lastJumpTimeRef (fst (Basic.onResults f s)) = now f)
  /\ (forall f s j, snd (Local.onResults f s) = Some j ->
        t j = now f /\ Local.lastJumpTimeRef (fst (Local.onResults f s)) = now f)
  /\ (forall f s j, snd (Arcade.onResults f s) = Some j ->
        t j = now f /\ Arcade.lastJumpTimeRef (fst (Arcade.onResults f s)) = now f)
  /\ (forall fs s, spaced (snd (Basic.run fs s)))
  /\ (forall evs s, spaced (snd (Local.run evs s)))
  /\ (forall evs s, spaced (snd (Arcade.run evs s))).
Proof.
  repeat apply conj.
  - intros f s Hc. pose proof (Basic_onResults_step f s) as H.
    destruct (snd (Basic.onResults f s)); [lia | done].
  - intros f s Hc. pose proof (Local_onResults_step f s) as H.
    destruct (snd (Local.onResults f s)); [lia | done].
  - intros f s Hc. pose proof (Arcade_onResults_step f s) as H.
    destruct (snd (Arcade.onResults f s)); [lia | done].
  - intros f s j Hj. pose proof (Basic_onResults_step f s) as H.
    rewrite Hj in H. destruct H as (Ht & _ & Hl). by rewrite Hl, Ht.
  - intros f s j Hj. pose proof (Local_onResults_step f s) as H.
    rewrite Hj in H. destruct H as (Ht & _ & Hl). by rewrite Hl, Ht.
  - intros f s j Hj. pose proof (Arcade_onResults_step f s) as H.
    rewrite Hj in H. destruct H as (Ht & _ & Hl). by rewrite Hl, Ht.
  - intros fs s.
    apply (runWith_spaced Basic.onResults Basic.lastJumpTimeRef Basic_step_refractory).
  - intros evs s.
    apply (runWith_spaced Local.step Local.lastJumpTimeRef Local_step_refractory).
  - intros evs s.
    apply (runWith_spaced Arcade.step Arcade.lastJumpTimeRef Arcade_step_refractory).
Qed.

Lemma cooldown_spaces_jumps_witness :
  snd (Basic.onResults (frameAt 0.25 1300) (Basic.mkState (Some 0.5%float) 1000))
  = None.
Proof.
  destruct cooldown_spaces_jumps as [H _].
  apply (H (frameAt 0.25 1300) (Basic.mkState (Some 0.5%float) 1000)).
  simpl. lia.
Defined.

(** ** Threshold and cooldown *)

Lemma threshold_is_strict : PrimFloat.ltb lit_0_04 lit_0_04 = false.
Proof. reflexivity. Qed.

Lemma threshold_below_0_0401 : PrimFloat.ltb lit_0_04 lit_0_0401 = true.
Proof. reflexivity. Qed.

Lemma emitted_iff (b : bool) (P : Prop) (j : JumpEvent) :
  (b = true <-> P) ->
  ((if b then Some j else None) = Some j <-> P)
  /\ ((if b then Some j else None) = None <-> ~ P).
Proof.
  intros [H1 H2]. destruct b.
  - split; split.
    + intros _. by apply H1.
    + done.
    + done.
    + intros Hn. destruct Hn. by apply H1.
  - split; split.
    + done.
    + intros HP. by apply H2 in HP.
    + intros _ HP. by apply H2 in HP.
    + done.
Qed.

(** C2 (amended).  For a sample with a previous sample, and
    [diff = previousY - currentY]: the versions without an active-round
    flag emit a jump event exactly when [diff > 0.04] and more than 500 ms
    have passed since the last emitted one; the version with the flag emits
    exactly when, besides, the round is active.  A [diff] of exactly 0.04
    never emits; a [diff] of 0.0401 emits once the cooldown has elapsed (and
    the round is active, where there is a flag). *)
Theorem jump_iff_threshold_and_cooldown f y p :
  sampleOf f = Some y ->
  let diff := PrimFloat.sub p y in
  (forall s, Basic.prevShoulderRef s = Some p ->
     (snd (Basic.onResults f s) = Some (mkJump (now f))
      <-> PrimFloat.ltb lit_0_04 diff = true
          /\ 500 < now f - Basic.lastJumpTimeRef s)
     /\ (snd (Basic.onResults f s) = None
         <-> ~ (PrimFloat.ltb lit_0_04 diff = true
                /\ 500 < now f - Basic.lastJumpTimeRef s)))
  /\ (forall s, Local.prevShoulderRef s = Some p ->
        (snd (Local.onResults f s) = Some (mkJump (now f))
         <-> PrimFloat.ltb lit_0_04 diff = true
             /\ 500 < now f - Local.lastJumpTimeRef s)
        /\ (snd (Local.onResults f s) = None
            <-> ~ (PrimFloat.ltb lit_0_04 diff = true
                   /\ 500 < now f - Local.lastJumpTimeRef s)))
  /\ (forall s, Arcade.prevShoulderRef s = Some p ->
        (snd (Arcade.onResults f s) = Some (mkJump (now f))
         <-> Arcade.isGameActiveRef s = true
             /\ PrimFloat.ltb lit_0_04 diff = true
             /\ 500 < now f - Arcade.lastJumpTimeRef s)
        /\ (snd (Arcade.onResults f s) = None
            <-> ~ (Arcade.isGameActiveRef s = true
                   /\ PrimFloat.ltb lit_0_04 diff = true
                   /\ 500 < now f - Arcade.lastJumpTimeRef s)))
  /\ (diff = lit_0_04 ->
        (forall s, Basic.prevShoulderRef s = Some p ->
           snd (Basic.onResults f s) = None)
        /\ (forall s, Local.prevShoulderRef s = Some p ->
              snd (Local.onResults f s) = None)
        /\ (forall s, Arcade.prevShoulderRef s = Some p ->
              snd (Arcade.onResults f s) = None))
  /\ (diff = lit_0_0401 ->
        (forall s, Basic.prevShoulderRef s = Some p ->
           500 < now f - Basic.lastJumpTimeRef s ->
           snd (Basic.onResults f s) = Some (mkJump (now f)))
        /\ (forall s, Local.prevShoulderRef s = Some p ->
              500 < now f - Local.lastJumpTimeRef s ->
              snd (Local.onResults f s) = Some (mkJump (now f)))
        /\ (forall s, Arcade.prevShoulderRef s = Some p ->
              Arcade.isGameActiveRef s = true ->
              500 < now f - Arcade.lastJumpTimeRef s ->
              snd (Arcade.onResults f s) = Some (mkJump (now f)))).
Proof.
  intros Hf diff.
  assert (HB : forall s, Basic.prevShoulderRef s = Some p ->
     (snd (Basic.onResults f s) = Some (mkJump (now f))
      <-> PrimFloat.ltb lit_0_04 diff = true
          /\ 500 < now f - Basic.lastJumpTimeRef s)
     /\ (snd (Basic.onResults f s) = None
         <-> ~ (PrimFloat.ltb lit_0_04 diff = true
                /\ 500 < now f - Basic.lastJumpTimeRef s))).
  { intros s Hp. rewrite (Basic_onResults_sample f s y p Hf Hp).
    apply emitted_iff, jumpTest_iff. }
  assert (HL : forall s, Local.prevShoulderRef s = Some p ->
     (snd (Local.onResults f s) = Some (mkJump (now f))
      <-> PrimFloat.ltb lit_0_04 diff = true
          /\ 500 < now f - Local.lastJumpTimeRef s)
     /\ (snd (Local.onResults f s) = None
         <-> ~ (PrimFloat.ltb lit_0_04 diff = true
                /\ 500 < now f - Local.lastJumpTimeRef s))).
  { intros s Hp. rewrite (Local_onResults_sample f s y p Hf Hp).
    apply emitted_iff, jumpTest_iff. }
  assert (HA : forall s, Arcade.prevShoulderRef s = Some p ->
     (snd (Arcade.onResults f s) = Some (mkJump (now f))
      <-> Arcade.isGameActiveRef s = true
          /\ PrimFloat.ltb lit_0_04 diff = true
          /\ 500 < now f - Arcade.lastJumpTimeRef s)
     /\ (snd (Arcade.onResults f s) = None
         <-> ~ (Arcade.isGameActiveRef s = true
                /\ PrimFloat.ltb lit_0_04 diff = true
                /\ 500 < now f - Arcade.lastJumpTimeRef s))).
  { intros s Hp. rewrite (Arcade_onResults_sample f s y p Hf Hp).
    apply emitted_iff. by rewrite andb_true_iff, jumpTest_iff. }
  split; [exact HB|]. split; [exact HL|]. split; [exact HA|]. split.
  - intros Hd. rewrite Hd in HB, HL, HA.
    repeat apply conj; intros s Hp.
    + apply (HB s Hp). rewrite threshold_is_strict. by intros [? _].
    + apply (HL s Hp). rewrite threshold_is_strict. by intros [? _].
    + apply (HA s Hp). rewrite threshold_is_strict. by intros (_ & ? & _).
  - intros Hd. rewrite Hd in HB, HL, HA.
    repeat apply conj; intros s Hp.
    + intros Hc. apply (HB s Hp). by rewrite threshold_below_0_0401.
    + intros Hc. apply (HL s Hp). by rewrite threshold_below_0_0401.
    + intros Ha Hc. apply (HA s Hp). by rewrite threshold_below_0_0401.
Qed.

Lemma jump_iff_threshold_and_cooldown_witness :
  snd (Basic.onResults (frameAt 0 1000) (Basic.mkState (Some lit_0_0401) 0))
  = Some (mkJump 1000)
  /\ snd (Basic.onResults (frameAt 0 1000) (Basic.mkState (Some lit_0_04) 0))
     = None.
Proof.
  split.
  - destruct (jump_iff_threshold_and_cooldown (frameAt 0 1000) 0%float
                lit_0_0401 eq_refl) as (_ & _ & _ & _ & H).
    destruct (H eq_refl) as (HB & _ & _).
    apply (HB (Basic.mkState (Some lit_0_0401) 0) eq_refl). simpl. lia.
  - destruct (jump_iff_threshold_and_cooldown (frameAt 0 1000) 0%float
                lit_0_04 eq_refl) as (_ & _ & _ & H & _).
    destruct (H eq_refl) as (HB & _ & _).
    apply (HB (Basic.mkState (Some lit_0_04) 0) eq_refl).
Defined.

(** C2 as stated fails where there is an active-round flag: on the START
    screen, one second after the last recorded jump time and with an upward
    move of 0.25, threshold and cooldown are both passed and no event is
    emitted. *)
Lemma jump_iff_fails_when_round_inactive :
  sampleOf (frameAt 0.25 1200) = Some 0.25%float
  /\ Arcade.prevShoulderRef arcadeIdle = Some 0.5%float
  /\ Arcade.isGameActiveRef arcadeIdle = false
  /\ ~ (snd (Arcade.onResults (frameAt 0.25 1200) arcadeIdle)
        = Some (mkJump (now (frameAt 0.25 1200)))
        <-> PrimFloat.ltb lit_0_04 (PrimFloat.sub 0.5 0.25) = true
            /\ 500 < now (frameAt 0.25 1200) - Arcade.lastJumpTimeRef arcadeIdle).
Proof.
  repeat apply conj; try reflexivity.
  intros [_ H].
  assert (Hn : snd (Arcade.onResults (frameAt 0.25 1200) arcadeIdle) = None)
    by reflexivity.
  rewrite Hn in H. discriminate H. split; [reflexivity | simpl; lia].
Qed.

(** ** The first sample *)

Lemma Local_step_without_sample ev s :
  (forall f, ev = Local.EvFrame f -> sampleOf f = None) ->
  Local.prevShoulderRef s = None ->
  Local.prevShoulderRef (fst (Local.step ev s)) = None
  /\ snd (Local.step ev s) = None.
Proof.
  intros Hev Hs. destruct ev; simpl; try done.
  by rewrite (Local_onResults_lost f s (Hev f eq_refl)).
Qed.

Lemma Arcade_step_without_sample ev s :
  (forall f, ev = Arcade.EvFrame f -> sampleOf f = None) ->
  Arcade.prevShoulderRef s = None ->
  Arcade.prevShoulderRef (fst (Arcade.step ev s)) = None
  /\ snd (Arcade.step ev s) = None.
Proof.
  intros Hev Hs. unfold Arcade.step.
  destruct (Arcade.offered ev s); [|done].
  destruct ev; simpl; try done.
  - unfold Arcade.handleNameSubmit. by destruct (truthy _).
  - unfold Arcade.handleCrash, Arcade.handleGameOver.
    by destruct (Arcade.isGameActiveRef s).
  - by rewrite (Arcade_onResults_lost f s (Hev f eq_refl)).
Qed.

(** C8 (amended).  In every version a sample that finds no previous
    sample stored emits nothing and is stored; so from a freshly mounted
    component no event is emitted up to and including the first sample.  A
    frame without a pose changes nothing: the stored sample stays, and the
    first sample after the loss is compared with it. *)
Theorem first_sample_never_jumps :
  (forall f s, Basic.prevShoulderRef s = None ->
     snd (Basic.onResults f s) = None
     /\ Basic.prevShoulderRef (fst (Basic.onResults f s)) = sampleOf f)
  /\ (forall f s, Local.prevShoulderRef s = None ->
        snd (Local.onResults f s) = None
        /\ Local.prevShoulderRef (fst (Local.onResults f s)) = sampleOf f)
  /\ (forall f s, Arcade.prevShoulderRef s = None ->
        snd (Arcade.onResults f s) = None
        /\ Arcade.prevShoulderRef (fst (Arcade.onResults f s)) = sampleOf f)
  /\ (forall fs f,
        Forall (fun f' => sampleOf f' = None) fs ->
        snd (Basic.run (fs ++ [f]) Basic.init) = [])
  /\ (forall ls now_ evs f,
        Forall (fun ev => forall f', ev = Local.EvFrame f' -> sampleOf f' = None)
          evs ->
        snd (Local.run (evs ++ [Local.EvFrame f]) (Local.init ls now_)) = [])
  /\ (forall ls now_ evs f,
        Forall (fun ev => forall f', ev = Arcade.EvFrame f' -> sampleOf f' = None)
          evs ->
        snd (Arcade.run (evs ++ [Arcade.EvFrame f]) (Arcade.init ls now_)) = [])
  /\ (forall f s, sampleOf f = None -> Basic.onResults f s = (s, None))
  /\ (forall f s, sampleOf f = None -> Local.onResults f s = (s, None))
  /\ (forall f s, sampleOf f = None -> Arcade.onResults f s = (s, None)).
Proof.
  repeat apply conj.
  - intros f s Hs. split; [by apply Basic_onResults_first|].
    rewrite Basic_onResults_prev, Hs. by destruct (sampleOf f).
  - intros f s Hs. split; [by apply Local_onResults_first|].
    rewrite Local_onResults_prev, Hs. by destruct (sampleOf f).
  - intros f s Hs. split; [by apply Arcade_onResults_first|].
    rewrite Arcade_onResults_prev, Hs. by destruct (sampleOf f).
  - intros fs f Hfs. unfold Basic.run. rewrite runWith_app. simpl.
    destruct (runWith_quiet Basic.onResults
                (fun s => Basic.prevShoulderRef s = None)
                (fun f' => sampleOf f' = None)) with (evs := fs) (s := Basic.init)
      as [Hp Hq]; [|done|done|].
    { intros f' s Hf' Hs. by rewrite (Basic_onResults_lost f' s Hf'). }
    rewrite Hq. simpl.
    destruct (Basic.onResults f _) as [s1 j] eqn:E. simpl.
    pose proof (Basic_onResults_first f _ Hp) as Hn.
    rewrite E in Hn. simpl in Hn. by rewrite Hn.
  - intros ls now_ evs f Hevs. unfold Local.run. rewrite runWith_app. simpl.
    destruct (runWith_quiet Local.step
                (fun s => Local.prevShoulderRef s = None)
                (fun ev => forall f', ev = Local.EvFrame f' -> sampleOf f' = None))
      with (evs := evs) (s := Local.init ls now_)
      as [Hp Hq]; [|done|done|].
    { intros ev s. apply Local_step_without_sample. }
    rewrite Hq. simpl.
    destruct (Local.onResults f _) as [s1 j] eqn:E. simpl.
    pose proof (Local_onResults_first f _ Hp) as Hn.
    rewrite E in Hn. simpl in Hn. by rewrite Hn.
  - intros ls now_ evs f Hevs. unfold Arcade.run. rewrite runWith_app. simpl.
    destruct (runWith_quiet Arcade.step
                (fun s => Arcade.prevShoulderRef s = None)
                (fun ev => forall f', ev = Arcade.EvFrame f' -> sampleOf f' = None))
      with (evs := evs) (s := Arcade.init ls now_)
      as [Hp Hq]; [|done|done|].
    { intros ev s. apply Arcade_step_without_sample. }
    rewrite Hq. simpl. unfold Arcade.step at 1.
    assert (Hoff : forall s, Arcade.offered (Arcade.EvFrame f) s = true) by done.
    rewrite Hoff. simpl.
    destruct (Arcade.onResults f _) as [s1 j] eqn:E. simpl.
    pose proof (Arcade_onResults_first f _ Hp) as Hn.
    rewrite E in Hn. simpl in Hn. by rewrite Hn.
  - apply Basic_onResults_lost.
  - apply Local_onResults_lost.
  - apply Arcade_onResults_lost.
Qed.

Lemma first_sample_never_jumps_witness :
  snd (Basic.onResults (frameAt 0.25 2000) Basic.init) = None
  /\ Basic.prevShoulderRef (fst (Basic.onResults (frameAt 0.25 2000) Basic.init))
     = Some 0.25%float.
Proof.
  destruct first_sample_never_jumps as [H _].
  apply (H (frameAt 0.25 2000) Basic.init). reflexivity.
Defined.

(** C8 as stated fails after a pose loss: the frame without a pose leaves
    the stored height 0.5 in place, and the first sample after the loss, at
    height 0.25, is taken as a jump. *)
Lemma first_sample_after_loss_jumps :
  sampleOf beforeLoss = Some 0.5%float
  /\ sampleOf duringLoss = None
  /\ sampleOf afterLoss = Some 0.25%float
  /\ Basic.prevShoulderRef (fst (Basic.run [beforeLoss; duringLoss] Basic.init))
     = Some 0.5%float
  /\ snd (Basic.onResults afterLoss
            (fst (Basic.run [beforeLoss; duringLoss] Basic.init)))
     = Some (mkJump 2000)
  /\ snd (Basic.run [beforeLoss; duringLoss; afterLoss] Basic.init)
     = [mkJump 2000].
Proof. repeat apply conj; reflexivity. Qed.

(* ================================================================== *)
(** * The local leaderboard *)

Lemma findIndexFrom_spec {A} (p : A -> bool) (l : list A) (i : Z) :
  0 <= i ->
  (findIndexFrom p i l = -1 /\ Forall (fun x => p x = false) l)
  \/ (exists (n : nat) (x : A),
        findIndexFrom p i l = i + Z.of_nat n
        /\ l !! n = Some x /\ p x = true
        /\ Forall (fun x => p x = false) (take n l)).
Proof.
  revert i. induction l as [|a l IH]; intros i Hi; simpl.
  - left. by split.
  - destruct (p a) eqn:E.
    + right. exists 0%nat, a. simpl. repeat split; [lia | done | constructor].
    + destruct (IH (i + 1)) as [[H1 H2]|(n & x & H1 & H2 & H3 & H4)]; [lia|..].
      * left. split; [done|]. by constructor.
      * right. exists (Datatypes.S n), x. simpl.
        repeat split; [lia | done | done | by constructor].
Qed.

Lemma sameDateAndScore_true entry e :
  Local.sameDateAndScore entry e = true
  <-> Local.date e = Local.date entry /\ Local.score e = Local.score entry.
Proof.
  unfold Local.sameDateAndScore. by rewrite andb_true_iff, !Z.eqb_eq.
Qed.

Lemma withEntry_elem entry prev e :
  e ∈ Local.withEntry entry prev -> e ∈ prev \/ e = entry.
Proof.
  unfold Local.withEntry. intros He.
  apply elem_of_take in He as (i & Hi & _).
  apply list_elem_of_lookup_2 in Hi.
  rewrite sortByScoreDesc_perm in Hi.
  apply elem_of_app in Hi as [?|Hi]; [by left|].
  right. by apply list_elem_of_singleton in Hi.
Qed.

(** With no earlier row of the same date and score, [findIndex] reports
    the rank of the new row. *)
Lemma findIndex_reports_rank entry prev :
  (forall e, e ∈ prev ->
     ~ (Local.date e = Local.date entry /\ Local.score e = Local.score entry)) ->
  reportsRankOf entry (Local.withEntry entry prev)
    (findIndex (Local.sameDateAndScore entry) (Local.withEntry entry prev)).
Proof.
  intros Hfresh. unfold reportsRankOf, findIndex.
  destruct (findIndexFrom_spec (Local.sameDateAndScore entry)
              (Local.withEntry entry prev) 0)
    as [[Hidx Hall]|(n & x & Hidx & Hx & Hp & _)]; [lia|..]; rewrite Hidx.
  - simpl. intros Hin. rewrite Forall_forall in Hall.
    specialize (Hall entry Hin).
    assert (Local.sameDateAndScore entry entry = true)
      by by apply sameDateAndScore_true.
    congruence.
  - destruct (0 + Z.of_nat n =? -1) eqn:E; [apply Z.eqb_eq in E; lia|].
    split; [lia|].
    replace (Z.to_nat (0 + Z.of_nat n)) with n by lia.
    rewrite Hx. f_equal.
    apply sameDateAndScore_true in Hp.
    destruct (withEntry_elem entry prev x) as [Hprev | ->]; [|by apply Hfresh in Hprev|done].
    by apply list_elem_of_lookup_2 in Hx.
Qed.

Lemma take_descending_bounds {A} (key : A -> Z) (l : list A) (n : nat) a b :
  descending key l -> a ∈ take n l -> b ∈ drop n l -> key b <= key a.
Proof.
  unfold descending. intros Hs Ha Hb.
  rewrite <- (take_drop n l) in Hs.
  by apply (StronglySorted_app_1_elem_of _ _ _ a b) in Hs.
Qed.

(** The list of the [setLeaderboard] updater is the previous list with the
    new row appended, sorted by score descending with rows of equal score
    in arrival order, cut to its first five rows, which are five rows of
    highest score; [handleGameOver] installs and stores that list.  The
    index it reports is the one [findIndex] returns for the date and score
    of the new row: where no earlier row has both, that is the new row's
    0-based rank, or [-1] when the row was cut off.  Adding 85 to
    [100, 90, 80, 70, 60] gives [100, 90, 85, 80, 70], without the 60, and
    reports index 2, the third rank. *)
Theorem leaderboard_applyRound :
  (forall prev entry,
     let sorted := sortByScoreDesc Local.score (prev ++ [entry]) in
     let updated := Local.withEntry entry prev in
     updated = take 5 sorted
     /\ sorted ≡ₚ prev ++ [entry]
     /\ descending Local.score sorted
     /\ tiesInOrder Local.score (prev ++ [entry]) sorted
     /\ (forall l, descending Local.score l ->
           tiesInOrder Local.score (prev ++ [entry]) l -> l = sorted)
     /\ length updated = Nat.min 5 (length prev + 1)
     /\ (forall a b, a ∈ updated -> b ∈ drop 5 sorted ->
           Local.score b <= Local.score a)
     /\ ((forall e, e ∈ prev ->
            ~ (Local.date e = Local.date entry
               /\ Local.score e = Local.score entry)) ->
         reportsRankOf entry updated
           (findIndex (Local.sameDateAndScore entry) updated)))
  /\ (forall env s,
        let entry :=
          Local.mkEntry (readScore (Local.digits env)) (Local.nowEntry env)
            (Local.jumpCountRef s)
            (Math_round (roundTimeOf (Local.nowRound env) (Local.roundStartRef s))) in
        let updated := Local.withEntry entry (Local.leaderboard s) in
        let s' := Local.handleGameOver env s in
        Local.leaderboard s' = updated
        /\ Local.newHighlight s'
           = findIndex (Local.sameDateAndScore entry) updated
        /\ Local.localStorage s' !! STORAGE_KEYS.LEADERBOARD
           = Some (StoredLeaderboard updated))
  /\ (Local.score <$> Local.withEntry sampleEntry sampleBoard
      = [100; 90; 85; 80; 70]
      /\ Local.withEntry sampleEntry sampleBoard !! 2%nat = Some sampleEntry
      /\ findIndex (Local.sameDateAndScore sampleEntry)
           (Local.withEntry sampleEntry sampleBoard) = 2).
Proof.
  split; [|split].
  - intros prev entry sorted updated. subst sorted updated.
    repeat apply conj.
    + done.
    + apply sortByScoreDesc_perm.
    + apply sortByScoreDesc_descending.
    + apply sortByScoreDesc_stable.
    + intros l Hd Ht. apply (sorted_stable_unique Local.score);
        [done | apply sortByScoreDesc_descending |].
      intros k. rewrite (Ht k). symmetry.
      apply (sortByScoreDesc_stable Local.score).
    + unfold Local.withEntry.
      rewrite length_take, sortByScoreDesc_perm, length_app. done.
    + intros a b Ha Hb. unfold Local.withEntry in Ha.
      eapply take_descending_bounds; [apply sortByScoreDesc_descending | done..].
    + apply findIndex_reports_rank.
  - intros env s entry updated s'. subst s'.
    unfold Local.handleGameOver, saveStored. simpl.
    repeat apply conj; [done | done |].
    rewrite !lookup_insert_ne by done. apply lookup_insert_eq.
  - repeat apply conj; reflexivity.
Qed.

Lemma leaderboard_applyRound_witness :
  reportsRankOf sampleEntry (Local.withEntry sampleEntry sampleBoard)
    (findIndex (Local.sameDateAndScore sampleEntry)
       (Local.withEntry sampleEntry sampleBoard)).
Proof.
  destruct leaderboard_applyRound as [H _].
  destruct (H sampleBoard sampleEntry) as (_ & _ & _ & _ & _ & _ & _ & Hr).
  apply Hr. intros e He [Hd _]. revert He Hd.
  unfold sampleBoard. rewrite !elem_of_cons, elem_of_nil.
  intros [->|[->|[->|[->|[->|[]]]]]]; simpl; lia.
Defined.

(** C5.  The handler looks the inserted row up by date and score, and so
    reports another row's rank when an earlier row has both: after a round
    of one jump ended with score 100 at time 7000, a second game over in
    the same millisecond inserts a row of the same date and score, which
    stands behind the first, at index 1, while the index reported and
    highlighted is 0, the first row's, and not the inserted row's rank. *)
Lemma rank_of_twin_row_misreported :
  let s1 := Local.handleGameOver gameOverAt7s localRoundPlayed in
  let s2 := Local.handleGameOver gameOverAt7s s1 in
  let first := Local.mkEntry 100 7000 1 7 in
  let second := Local.mkEntry 100 7000 0 0 in
  Local.leaderboard s1 = [first]
  /\ Local.leaderboard s2 = Local.withEntry second [first]
  /\ Local.leaderboard s2 = [first; second]
  /\ Local.newHighlight s2 = 0
  /\ ~ reportsRankOf second (Local.withEntry second [first])
         (findIndex (Local.sameDateAndScore second)
            (Local.withEntry second [first])).
Proof.
  repeat apply conj; try reflexivity.
  unfold reportsRankOf. simpl. intros [_ H]. discriminate H.
Qed.

(* ================================================================== *)
(** * The round controller *)


Lemma truthy_name input :
  truthy (trim input) = true ->
  truthy (slice0 10 (toUpperCase (trim input))) = true.
Proof. by destruct (trim input). Qed.

Lemma Arcade_step_inv ev s : arcadeInv s -> arcadeInv (fst (Arcade.step ev s)).
Proof.
  intros (Hact & Hname & Hsync). unfold Arcade.step.
  destruct (Arcade.offered ev s) eqn:Hoff; [|done].
  destruct ev; simpl in *; try done.
  - unfold Arcade.handleNameSubmit.
    destruct (truthy (trim (Arcade.inputName s))) eqn:E; [|done].
    split; [done|]. split; [|done]. intros _. by apply truthy_name.
  - destruct (Arcade.gameState s) eqn:G; try done.
    split; [done|]. split; [|done]. intros _. by apply Hname.
  - unfold Arcade.handleCrash, Arcade.handleGameOver.
    destruct (Arcade.isGameActiveRef s) eqn:A; simpl;
      [|split; [intros ?; congruence | by split]].
    split; [done|]. split; [|done]. intros _. apply Hname.
    by rewrite (Hact eq_refl).
  - unfold Arcade.onResults.
    destruct (poseLandmarks f); [|done].
    destruct (avgShoulderY _); done.
Qed.

Lemma Arcade_run_inv evs s : arcadeInv s -> arcadeInv (fst (Arcade.run evs s)).
Proof.
  unfold Arcade.run. revert s.
  induction evs as [|ev evs IH]; intros s Hs; [done|].
  rewrite runWith_cons. simpl. by apply IH, Arcade_step_inv.
Qed.

Lemma Arcade_reachable_inv s : Arcade.reachable s -> arcadeInv s.
Proof.
  intros (ls & now_ & evs & ->). apply Arcade_run_inv. by repeat split.
Qed.

Lemma Arcade_active_has_name s :
  Arcade.reachable s -> Arcade.isGameActiveRef s = true ->
  truthy (Arcade.playerNameRef s) = true.
Proof.
  intros (Hact & Hname & _)%Arcade_reachable_inv Ha.
  apply Hname. by rewrite (Hact Ha).
Qed.

Lemma Arcade_handleGameOver_active env s :
  Arcade.isGameActiveRef s = true ->
  let s' := Arcade.handleGameOver env s in
  Arcade.isGameActiveRef s' = false
  /\ Arcade.gameState s' = Arcade.GAME_OVER
  /\ Arcade.lastGameScore s' = Some (readScore (Arcade.digits env))
  /\ Arcade.sessionStats s'
     = updateSessionStats (Arcade.jumpCountRef s)
         (roundTimeOf (Arcade.nowRound env) (Arcade.roundStartRef s))
         (readScore (Arcade.digits env)) (Arcade.sessionStats s)
  /\ Arcade.streak s'
     = updateStreak (readScore (Arcade.digits env)) (Arcade.streak s)
  /\ Arcade.pushed s'
     = if truthy (Arcade.playerNameRef s)
       then Arcade.pushed s ++ [Arcade.roundRecord env s]
       else Arcade.pushed s.
Proof.
  intros Ha. unfold Arcade.handleGameOver. rewrite Ha. simpl. done.
Qed.

Lemma Arcade_handleGameOver_idempotent env env' s :
  Arcade.handleGameOver env' (Arcade.handleGameOver env s)
  = Arcade.handleGameOver env s.
Proof.
  destruct (Arcade.isGameActiveRef s) eqn:Ha.
  - apply Arcade_handleGameOver_inactive.
    by apply (Arcade_handleGameOver_active env s Ha).
  - rewrite (Arcade_handleGameOver_inactive env s Ha).
    by apply Arcade_handleGameOver_inactive.
Qed.

Lemma arcadeRoundStarted_reachable : Arcade.reachable arcadeRoundStarted.
Proof.
  exists ∅, 0, [Arcade.EvInputChange "bob"; Arcade.EvNameSubmit 0].
  reflexivity.
Defined.

(** C1 (amended).  In the version with the active-round flag,
    [handleGameOver] does nothing when no round is active and clears the
    flag when one is, so calling it a second time changes nothing: for a
    round of the running component, two calls in succession update the
    statistics and the streak once, issue one leaderboard write and show
    the GAME_OVER screen.  The version with the local leaderboard has no
    such flag: each call of its handler applies the update of the
    statistics, counting one more round, and the update of the streak
    again, and replaces the board by the first five of its rows and a new
    row in descending order of score; the new row is on a board that had
    fewer than five rows, and a board of five keeps five rows, each the
    new row or a row it had. *)
Theorem game_over_handled_once :
  (forall env s,
     Arcade.isGameActiveRef s = false -> Arcade.handleGameOver env s = s)
  /\ (forall env s,
        Arcade.isGameActiveRef (Arcade.handleGameOver env s) = false)
  /\ (forall env env' s,
        Arcade.handleGameOver env' (Arcade.handleGameOver env s)
        = Arcade.handleGameOver env s)
  /\ (forall env env' s,
        Arcade.reachable s -> Arcade.isGameActiveRef s = true ->
        let s2 := Arcade.handleGameOver env' (Arcade.handleGameOver env s) in
        Arcade.sessionStats s2
        = updateSessionStats (Arcade.jumpCountRef s)
            (roundTimeOf (Arcade.nowRound env) (Arcade.roundStartRef s))
            (readScore (Arcade.digits env)) (Arcade.sessionStats s)
        /\ Arcade.streak s2
           = updateStreak (readScore (Arcade.digits env)) (Arcade.streak s)
        /\ Arcade.pushed s2 = Arcade.pushed s ++ [Arcade.roundRecord env s]
        /\ Arcade.gameState s2 = Arcade.GAME_OVER)
  /\ (forall env s,
        let s' := Local.handleGameOver env s in
        let roundTime :=
          roundTimeOf (Local.nowRound env) (Local.roundStartRef s) in
        let entry :=
          Local.mkEntry (readScore (Local.digits env)) (Local.nowEntry env)
            (Local.jumpCountRef s) (Math_round roundTime) in
        Local.sessionStats s'
        = updateSessionStats (Local.jumpCountRef s) roundTime
            (readScore (Local.digits env)) (Local.sessionStats s)
        /\ roundsPlayed (Local.sessionStats s')
           = roundsPlayed (Local.sessionStats s) + 1
        /\ Local.streak s'
           = updateStreak (readScore (Local.digits env)) (Local.streak s)
        /\ Local.leaderboard s'
           = take 5 (sortByScoreDesc Local.score (Local.leaderboard s ++ [entry]))
        /\ length (Local.leaderboard s')
           = Nat.min 5 (length (Local.leaderboard s) + 1)
        /\ (forall e, e ∈ Local.leaderboard s' ->
              e ∈ Local.leaderboard s \/ e = entry)
        /\ ((length (Local.leaderboard s) < 5)%nat ->
            entry ∈ Local.leaderboard s')).
Proof.
  refine (conj _ (conj _ (conj _ (conj _ _)))).
  - apply Arcade_handleGameOver_inactive.
  - intros env s. destruct (Arcade.isGameActiveRef s) eqn:Ha.
    + by apply (Arcade_handleGameOver_active env s Ha).
    + by rewrite (Arcade_handleGameOver_inactive env s Ha).
  - apply Arcade_handleGameOver_idempotent.
  - intros env env' s Hr Ha s2. subst s2.
    rewrite Arcade_handleGameOver_idempotent.
    destruct (Arcade_handleGameOver_active env s Ha)
      as (_ & Hg & _ & Hst & Hsk & Hp).
    rewrite (Arcade_active_has_name s Hr Ha) in Hp. done.
  - intros env s s' roundTime entry. subst s' roundTime entry. simpl.
    do 4 (split; [done|]). split; [|split].
    + unfold Local.withEntry.
      by rewrite length_take, sortByScoreDesc_perm, length_app.
    + intros e. apply withEntry_elem.
    + intros Hlen. unfold Local.withEntry. rewrite take_ge.
      * rewrite sortByScoreDesc_perm. set_solver.
      * rewrite sortByScoreDesc_perm, length_app. simpl. lia.
Qed.

Lemma game_over_handled_once_witness :
  Arcade.pushed
    (Arcade.handleGameOver (Arcade.mkEnv (Some ["1"; "5"; "0"]) 9000 9001)
       (Arcade.handleGameOver (Arcade.mkEnv (Some ["1"; "5"; "0"]) 9000 9000)
          arcadeRoundStarted))
  = [Arcade.mkRecord "BOB" 150 9000 0 9 "arcade"]
  /\ Local.mkEntry 100 7000 1 7
     ∈ Local.leaderboard (Local.handleGameOver gameOverAt7s localRoundPlayed).
Proof.
  destruct game_over_handled_once as (_ & _ & _ & H & Hl).
  split.
  - destruct (H (Arcade.mkEnv (Some ["1"; "5"; "0"]) 9000 9000)
                (Arcade.mkEnv (Some ["1"; "5"; "0"]) 9000 9001)
                arcadeRoundStarted arcadeRoundStarted_reachable eq_refl)
      as (_ & _ & Hp & _).
    rewrite Hp. reflexivity.
  - destruct (Hl gameOverAt7s localRoundPlayed) as (_ & _ & _ & _ & _ & _ & Hin).
    apply Hin. vm_compute. lia.
Defined.

(** C1 as stated fails in the version with the local leaderboard: the
    second of two calls in succession counts a second round, doubles the
    score total, adds a second row and resets the streak. *)
Lemma local_game_over_counted_twice :
  let s1 := Local.handleGameOver gameOverAt7s localRoundPlayed in
  let s2 := Local.handleGameOver gameOverAt7s s1 in
  roundsPlayed (Local.sessionStats localRoundPlayed) = 0
  /\ roundsPlayed (Local.sessionStats s1) = 1
  /\ roundsPlayed (Local.sessionStats s2) = 2
  /\ totalScore (Local.sessionStats s1) = 100
  /\ totalScore (Local.sessionStats s2) = 200
  /\ Local.streak s1 = mkStreak 1 1 100
  /\ Local.streak s2 = mkStreak 0 1 100
  /\ length (Local.leaderboard s1) = 1%nat
  /\ length (Local.leaderboard s2) = 2%nat.
Proof. repeat apply conj; reflexivity. Qed.



(* ================================================================== *)
(** * Resetting the statistics *)

(** C10.  In both versions that have it, [resetStats] sets the four
    statistics to zero and the streak to {0, 0, 0}, stores both, and
    changes nothing else: the leaderboard, the player's name and every
    other key of [localStorage], among them the leaderboard's and the
    player name's, are as before. *)
Theorem resetStats_also_resets_streak :
  (forall s,
     let s' := Arcade.resetStats s in
     Arcade.sessionStats s' = mkStats 0 0 0 0
     /\ Arcade.streak s' = mkStreak 0 0 0
     /\ Arcade.localStorage s' !! STORAGE_KEYS.SESSION_STATS
        = Some (StoredStats (mkStats 0 0 0 0))
     /\ Arcade.localStorage s' !! STORAGE_KEYS.STREAK
        = Some (StoredStreak (mkStreak 0 0 0))
     /\ Arcade.localStorage s' !! STORAGE_KEYS.LEADERBOARD
        = Arcade.localStorage s !! STORAGE_KEYS.LEADERBOARD
     /\ Arcade.localStorage s' !! PLAYER_NAME_KEY
        = Arcade.localStorage s !! PLAYER_NAME_KEY
     /\ Arcade.localStorage s' !! STORAGE_KEYS.THEME
        = Arcade.localStorage s !! STORAGE_KEYS.THEME
     /\ Arcade.localStorage s'
        = <[STORAGE_KEYS.STREAK := StoredStreak (mkStreak 0 0 0)]>
            (<[STORAGE_KEYS.SESSION_STATS := StoredStats (mkStats 0 0 0 0)]>
               (Arcade.localStorage s))
     /\ Arcade.leaderboard s' = Arcade.leaderboard s
     /\ Arcade.playerName s' = Arcade.playerName s
     /\ Arcade.playerNameRef s' = Arcade.playerNameRef s
     /\ Arcade.pushed s' = Arcade.pushed s
     /\ Arcade.gameState s' = Arcade.gameState s
     /\ Arcade.isGameActiveRef s' = Arcade.isGameActiveRef s
     /\ Arcade.jumpCountRef s' = Arcade.jumpCountRef s
     /\ Arcade.roundStartRef s' = Arcade.roundStartRef s
     /\ Arcade.lastGameScore s' = Arcade.lastGameScore s)
  /\ (forall s,
        let s' := Local.resetStats s in
        Local.sessionStats s' = mkStats 0 0 0 0
        /\ Local.streak s' = mkStreak 0 0 0
        /\ Local.localStorage s' !! STORAGE_KEYS.SESSION_STATS
           = Some (StoredStats (mkStats 0 0 0 0))
        /\ Local.localStorage s' !! STORAGE_KEYS.STREAK
           = Some (StoredStreak (mkStreak 0 0 0))
        /\ Local.localStorage s' !! STORAGE_KEYS.LEADERBOARD
           = Local.localStorage s !! STORAGE_KEYS.LEADERBOARD
        /\ Local.localStorage s' !! STORAGE_KEYS.THEME
           = Local.localStorage s !! STORAGE_KEYS.THEME
        /\ Local.localStorage s'
           = <[STORAGE_KEYS.STREAK := StoredStreak (mkStreak 0 0 0)]>
               (<[STORAGE_KEYS.SESSION_STATS := StoredStats (mkStats 0 0 0 0)]>
                  (Local.localStorage s))
        /\ Local.leaderboard s' = Local.leaderboard s
        /\ Local.newHighlight s' = Local.newHighlight s
        /\ Local.jumpCountRef s' = Local.jumpCountRef s
        /\ Local.roundStartRef s' = Local.roundStartRef s
        /\ Local.lastGameScore s' = Local.lastGameScore s).
Proof.
  split; intros s s'; subst s'; simpl; unfold saveStored;
    repeat apply conj; try done.
  - rewrite lookup_insert_ne by done. apply lookup_insert_eq.
  - apply lookup_insert_eq.
  - by rewrite !lookup_insert_ne.
  - by rewrite !lookup_insert_ne.
  - by rewrite !lookup_insert_ne.
  - rewrite lookup_insert_ne by done. apply lookup_insert_eq.
  - apply lookup_insert_eq.
  - by rewrite !lookup_insert_ne.
  - by rewrite !lookup_insert_ne.
Qed.

(* ================================================================== *)
(** * Names *)

Lemma length_slice0 n s : String.length (slice0 n s) = Nat.min n (String.length s).
Proof.
  unfold slice0. revert s. induction n as [|n IH]; intros s.
  - by destruct s.
  - destruct s as [|c s]; simpl; [done|]. by rewrite IH.
Qed.

Lemma length_toUpperCase s : String.length (toUpperCase s) = String.length s.
Proof. induction s as [|c s IH]; simpl; [done|]. by rewrite IH. Qed.

Lemma isLower_upperChar c : isLower (upperChar c) = false.
Proof. destruct c as [[] [] [] [] [] [] [] []]; reflexivity. Qed.

Lemma noLower_toUpperCase s : noLower (toUpperCase s) = true.
Proof.
  induction s as [|c s IH]; simpl; [done|].
  by rewrite isLower_upperChar, IH.
Qed.

Lemma noLower_slice0 n s : noLower s = true -> noLower (slice0 n s) = true.
Proof.
  unfold slice0. revert s. induction n as [|n IH]; intros s Hs.
  - by destruct s.
  - destruct s as [|c s]; simpl in *; [done|].
    apply andb_true_iff in Hs as [Hc Hs]. by rewrite Hc, IH.
Qed.

Lemma wellFormedName_submitted input :
  truthy (trim input) = true ->
  wellFormedName (slice0 10 (toUpperCase (trim input))).
Proof.
  intros Ht. split.
  - rewrite length_slice0, length_toUpperCase.
    destruct (trim input) as [|c r]; [done|].
    change (String.length (String c r)) with (Datatypes.S (String.length r)). lia.
  - apply noLower_slice0, noLower_toUpperCase.
Qed.

Lemma wellFormedName_truthy n : wellFormedName n -> truthy n = true.
Proof. intros [[H _] _]. destruct n; [simpl in H; lia | done]. Qed.

(* ================================================================== *)
(** * More on the states of the arcade component *)

(** Reads a key of [localStorage] after the writes of a handler. *)
Ltac storage_lookup :=
  unfold loadStats, loadStreak, loadLeaderboard, loadTheme, loadStored,
    Arcade.storedName, saveStored in *;
  repeat first
    [ rewrite lookup_insert_eq
    | rewrite lookup_insert_ne by done
    | rewrite lookup_delete_eq
    | rewrite lookup_delete_ne by done ].

Ltac facts_split :=
  refine (conj _ (conj _ (conj _ (conj _ (conj _ (conj _ _)))))); simpl.

Lemma Arcade_step_facts ev s : arcadeFacts s -> arcadeFacts (fst (Arcade.step ev s)).
Proof.
  intros Hs. pose proof Hs as (Hflag & Hjc & Hname & Hrec & Hst & Hsk & Hsn).
  unfold Arcade.step.
  destruct (Arcade.offered ev s) eqn:Hoff; [|exact Hs].
  destruct ev; simpl in Hoff |- *.
  - exact Hs.
  - unfold Arcade.handleNameSubmit.
    destruct (truthy (trim (Arcade.inputName s))) eqn:E; [|exact Hs].
    facts_split; try done.
    + intros _. by apply wellFormedName_submitted.
    + by storage_lookup.
    + by storage_lookup.
    + by storage_lookup.
  - destruct (Arcade.gameState s) eqn:G; try done.
    facts_split; try done. intros _. by apply Hname.
  - facts_split; try done; by storage_lookup.
  - unfold Arcade.handleCrash, Arcade.handleGameOver.
    destruct (Arcade.isGameActiveRef s) eqn:A; simpl; [|exact Hs].
    assert (Hwf : wellFormedName (Arcade.playerNameRef s)).
    { apply Hname. destruct Hflag as [Hflag _]. by rewrite Hflag. }
    facts_split; try done.
    + destruct (truthy _); [|done].
      apply Forall_app. split; [done|]. apply Forall_singleton.
      split; [done|]. by split.
    + by storage_lookup.
    + by storage_lookup.
    + by storage_lookup.
  - unfold Arcade.onResults.
    destruct (poseLandmarks f); [|exact Hs].
    destruct (avgShoulderY _); [|exact Hs].
    facts_split; try done.
    destruct (match Arcade.prevShoulderRef s with Some _ => _ | None => _ end); lia.
  - exact Hs.
  - facts_split; try done; by storage_lookup.
  - facts_split; try done; by storage_lookup.
Qed.

Lemma Arcade_run_facts evs s : arcadeFacts s -> arcadeFacts (fst (Arcade.run evs s)).
Proof.
  unfold Arcade.run. revert s.
  induction evs as [|ev evs IH]; intros s Hs; [done|].
  rewrite runWith_cons. simpl. by apply IH, Arcade_step_facts.
Qed.

Lemma Arcade_reachable_facts s : Arcade.reachable s -> arcadeFacts s.
Proof.
  intros (ls & now_ & evs & ->). apply Arcade_run_facts.
  facts_split; done.
Qed.

Lemma arcadeRoundEnded_reachable : Arcade.reachable arcadeRoundEnded.
Proof.
  exists ∅, 0, [Arcade.EvInputChange "bob"; Arcade.EvNameSubmit 0;
                Arcade.EvGameOver (Arcade.mkEnv (Some ["1"; "5"; "0"]) 9000 9000)].
  reflexivity.
Defined.

(** X1.  In every state the arcade component can be in, a round is
    active exactly on the PLAYING screen, the jump counter is not negative,
    and off the START screen the player name is well formed: one to ten
    characters, none of them a lower-case letter. *)
Theorem arcade_flag_matches_screen s :
  Arcade.reachable s ->
  (Arcade.isGameActiveRef s = true <-> Arcade.gameState s = Arcade.PLAYING)
  /\ 0 <= Arcade.jumpCountRef s
  /\ (Arcade.gameState s <> Arcade.START ->
      wellFormedName (Arcade.playerNameRef s)
      /\ Arcade.playerName s = Arcade.playerNameRef s).
Proof.
  intros Hr.
  destruct (Arcade_reachable_facts s Hr) as (Hflag & Hjc & Hname & _).
  destruct (Arcade_reachable_inv s Hr) as (_ & _ & Hsync).
  split; [done|]. split; [done|]. intros Hg. split; [by apply Hname | done].
Qed.

Lemma arcade_flag_matches_screen_witness :
  wellFormedName (Arcade.playerNameRef arcadeRoundEnded).
Proof.
  destruct (arcade_flag_matches_screen arcadeRoundEnded
              arcadeRoundEnded_reachable) as (_ & _ & H).
  apply H. discriminate.
Defined.

(** ** What a mount finds in storage *)

Lemma wellShaped_loadLeaderboard {E} (ls : gmap string (Stored E)) :
  wellShaped ls = true ->
  loadStored STORAGE_KEYS.LEADERBOARD (StoredLeaderboard []) ls
  = StoredLeaderboard (loadLeaderboard ls).
Proof.
  unfold wellShaped, itemIs, loadLeaderboard, loadStored.
  intros [[H _]%andb_true_iff _]%andb_true_iff.
  by destruct (ls !! STORAGE_KEYS.LEADERBOARD) as [[]|].
Qed.

Lemma wellShaped_loadStats {E} (ls : gmap string (Stored E)) :
  wellShaped ls = true ->
  loadStored STORAGE_KEYS.SESSION_STATS (StoredStats emptyStats) ls
  = StoredStats (loadStats ls).
Proof.
  unfold wellShaped, itemIs, loadStats, loadStored.
  intros [[_ H]%andb_true_iff _]%andb_true_iff.
  by destruct (ls !! STORAGE_KEYS.SESSION_STATS) as [[]|].
Qed.

Lemma wellShaped_loadStreak {E} (ls : gmap string (Stored E)) :
  wellShaped ls = true ->
  loadStored STORAGE_KEYS.STREAK (StoredStreak emptyStreak) ls
  = StoredStreak (loadStreak ls).
Proof.
  unfold wellShaped, itemIs, loadStreak, loadStored.
  intros [_ H]%andb_true_iff.
  by destruct (ls !! STORAGE_KEYS.STREAK) as [[]|].
Qed.

Lemma arcadeWellShaped_name ls :
  arcadeWellShaped ls = true ->
  ls !! PLAYER_NAME_KEY = Some (StoredText (Arcade.storedName ls))
  \/ (ls !! PLAYER_NAME_KEY = None /\ Arcade.storedName ls = EmptyString).
Proof.
  unfold arcadeWellShaped, itemIs, Arcade.storedName.
  intros [_ H]%andb_true_iff.
  destruct (ls !! PLAYER_NAME_KEY) as [[]|]; try done; [by left | by right].
Qed.

Lemma arcadeWellShaped_items ls :
  arcadeWellShaped ls = true
  <-> itemIs isLeaderboardItem STORAGE_KEYS.LEADERBOARD ls = true
      /\ itemIs isStatsItem STORAGE_KEYS.SESSION_STATS ls = true
      /\ itemIs isStreakItem STORAGE_KEYS.STREAK ls = true
      /\ itemIs isTextItem PLAYER_NAME_KEY ls = true.
Proof.
  unfold arcadeWellShaped, wellShaped. rewrite !andb_true_iff. tauto.
Qed.

Lemma wellShaped_items {E} (ls : gmap string (Stored E)) :
  wellShaped ls = true
  <-> itemIs isLeaderboardItem STORAGE_KEYS.LEADERBOARD ls = true
      /\ itemIs isStatsItem STORAGE_KEYS.SESSION_STATS ls = true
      /\ itemIs isStreakItem STORAGE_KEYS.STREAK ls = true.
Proof. unfold wellShaped. rewrite !andb_true_iff. tauto. Qed.

(** Reads the shape of an item after the writes of a handler. *)
Ltac shape_lookup :=
  simpl; unfold itemIs, saveStored in *;
  repeat first
    [ rewrite lookup_insert_eq
    | rewrite lookup_insert_ne by done
    | rewrite lookup_delete_eq
    | rewrite lookup_delete_ne by done ];
  done.

Lemma Arcade_step_shaped ev s :
  arcadeWellShaped (Arcade.localStorage s) = true ->
  arcadeWellShaped (Arcade.localStorage (fst (Arcade.step ev s))) = true.
Proof.
  intros Hs. unfold Arcade.step.
  destruct (Arcade.offered ev s); [|exact Hs].
  revert Hs. rewrite !arcadeWellShaped_items. intros (H1 & H2 & H3 & H4).
  destruct ev; simpl.
  - done.
  - unfold Arcade.handleNameSubmit.
    destruct (truthy (trim (Arcade.inputName s))); [|done].
    repeat split; shape_lookup.
  - done.
  - repeat split; shape_lookup.
  - unfold Arcade.handleCrash, Arcade.handleGameOver.
    destruct (Arcade.isGameActiveRef s); [|done].
    repeat split; shape_lookup.
  - unfold Arcade.onResults.
    destruct (poseLandmarks f); [|done].
    by destruct (avgShoulderY _).
  - done.
  - repeat split; shape_lookup.
  - repeat split; shape_lookup.
Qed.

Lemma Arcade_run_shaped evs s :
  arcadeWellShaped (Arcade.localStorage s) = true ->
  arcadeWellShaped (Arcade.localStorage (fst (Arcade.run evs s))) = true.
Proof.
  unfold Arcade.run. revert s.
  induction evs as [|ev evs IH]; intros s Hs; [done|].
  rewrite runWith_cons. simpl. by apply IH, Arcade_step_shaped.
Qed.

(** X2.  Mounted on a storage whose items are of the shapes the component
    writes, and with game overs whose scores are below 2^53, the arcade
    component keeps the storage in those shapes and in step with its
    state: what [loadStored] returns for the streak is the streak of the
    state; the item under the name key is the player name, or is absent
    when the name is empty; and, as long as the total play time is a
    finite number, what [loadStored] returns for the statistics is the
    statistics of the state.  A component mounted on that storage then
    starts with this streak, name and, under the same condition,
    statistics. *)
Theorem arcade_storage_mirrors_state ls now_ evs :
  arcadeWellShaped ls = true ->
  forallb arcadeExactScore evs = true ->
  let s := fst (Arcade.run evs (Arcade.init ls now_)) in
  arcadeWellShaped (Arcade.localStorage s) = true
  /\ loadStored STORAGE_KEYS.STREAK (StoredStreak emptyStreak)
       (Arcade.localStorage s)
     = StoredStreak (Arcade.streak s)
  /\ (Arcade.localStorage s !! PLAYER_NAME_KEY
      = Some (StoredText (Arcade.playerName s))
      \/ (Arcade.localStorage s !! PLAYER_NAME_KEY = None
          /\ Arcade.playerName s = EmptyString))
  /\ Arcade.playerNameRef s = Arcade.playerName s
  /\ (is_finite (totalPlayTime (Arcade.sessionStats s)) = true ->
      loadStored STORAGE_KEYS.SESSION_STATS (StoredStats emptyStats)
        (Arcade.localStorage s)
      = StoredStats (Arcade.sessionStats s))
  /\ (forall now',
        let s' := Arcade.init (Arcade.localStorage s) now' in
        Arcade.streak s' = Arcade.streak s
        /\ Arcade.playerName s' = Arcade.playerName s
        /\ Arcade.playerNameRef s' = Arcade.playerNameRef s
        /\ Arcade.inputName s' = Arcade.playerName s
        /\ (is_finite (totalPlayTime (Arcade.sessionStats s)) = true ->
            Arcade.sessionStats s' = Arcade.sessionStats s)).
Proof.
  intros Hls _ s.
  assert (Hr : Arcade.reachable s) by (by exists ls, now_, evs).
  destruct (Arcade_reachable_facts s Hr) as (_ & _ & _ & _ & Hst & Hsk & Hsn).
  destruct (Arcade_reachable_inv s Hr) as (_ & _ & Hsync).
  assert (Hw : arcadeWellShaped (Arcade.localStorage s) = true)
    by (by apply Arcade_run_shaped).
  pose proof Hw as [Hw3 _]%andb_true_iff.
  split; [exact Hw|].
  split; [by rewrite (wellShaped_loadStreak _ Hw3), Hsk|].
  split; [rewrite Hsync, <- Hsn; by apply arcadeWellShaped_name|].
  split; [by rewrite Hsync|].
  split; [intros _; by rewrite (wellShaped_loadStats _ Hw3), Hst|].
  intros now' s'. subst s'. simpl. rewrite Hsync, Hsn, Hsk, Hst. done.
Qed.

Lemma arcade_storage_mirrors_state_witness :
  loadStored STORAGE_KEYS.SESSION_STATS (StoredStats emptyStats)
    (Arcade.localStorage arcadeSecondSession)
  = StoredStats (Arcade.sessionStats arcadeSecondSession)
  /\ roundsPlayed (Arcade.sessionStats arcadeSecondSession) = 2
  /\ Arcade.localStorage arcadeSecondSession !! PLAYER_NAME_KEY
     = Some (StoredText "BOB").
Proof.
  destruct (arcade_storage_mirrors_state earlierSession 0
              [Arcade.EvInputChange "bob"; Arcade.EvNameSubmit 0;
               Arcade.EvGameOver
                 (Arcade.mkEnv (Some ["2"; "0"; "0"]) 9000 9000)])
    as (_ & _ & Hn & _ & Hst & _); [by vm_compute..|].
  split; [apply Hst; by vm_compute|].
  split; [by vm_compute|].
  destruct Hn as [Hn | [_ Hn]]; [exact Hn | by vm_compute in Hn].
Defined.

(** X3.  Every record the arcade component has written to the remote
    leaderboard has game mode "arcade", a well-formed player name and a
    jump count that is not negative. *)
Theorem pushed_records_well_formed s :
  Arcade.reachable s -> Forall wellFormedRecord (Arcade.pushed s).
Proof.
  intros Hr. by destruct (Arcade_reachable_facts s Hr) as (_ & _ & _ & H & _).
Qed.

Lemma pushed_records_well_formed_witness :
  Forall wellFormedRecord [Arcade.mkRecord "BOB" 150 9000 0 9 "arcade"].
Proof.
  apply (pushed_records_well_formed arcadeRoundEnded arcadeRoundEnded_reachable).
Defined.

(** ** Starting a round and leaving it *)

Lemma trimStart_allWhiteSpace s :
  allWhiteSpace s = true -> trimStart s = EmptyString.
Proof.
  induction s as [|c s IH]; simpl; [done|].
  intros [Hc Hs]%andb_true_iff. rewrite Hc. by apply IH.
Qed.

(** X4.  [handleNameSubmit] does nothing when the name typed is empty or
    blank; otherwise it begins a round: PLAYING screen, flag set, jump
    counter 0, round start at the current time, and one name, of one to
    ten characters with none of a to z, set in the cell and the state and
    stored; statistics, streak, leaderboard, remote writes and the
    detector's cells stay.  When the name typed has only characters below
    128, the name set is that text trimmed, with a to z upper-cased, and
    cut to ten characters. *)
Theorem name_submit_starts_round_or_does_nothing now_ s :
  (allWhiteSpace (Arcade.inputName s) = true ->
   Arcade.handleNameSubmit now_ s = s)
  /\ (truthy (trim (Arcade.inputName s)) = false ->
      Arcade.handleNameSubmit now_ s = s)
  /\ (truthy (trim (Arcade.inputName s)) = true ->
      let s' := Arcade.handleNameSubmit now_ s in
      Arcade.gameState s' = Arcade.PLAYING
      /\ Arcade.isGameActiveRef s' = true
      /\ Arcade.jumpCountRef s' = 0
      /\ Arcade.roundStartRef s' = now_
      /\ (allAscii (Arcade.inputName s) = true ->
          Arcade.playerNameRef s'
          = slice0 10 (toUpperCase (trim (Arcade.inputName s))))
      /\ wellFormedName (Arcade.playerNameRef s')
      /\ Arcade.playerName s' = Arcade.playerNameRef s'
      /\ Arcade.storedName (Arcade.localStorage s') = Arcade.playerNameRef s'
      /\ Arcade.sessionStats s' = Arcade.sessionStats s
      /\ Arcade.streak s' = Arcade.streak s
      /\ Arcade.leaderboard s' = Arcade.leaderboard s
      /\ Arcade.pushed s' = Arcade.pushed s
      /\ Arcade.prevShoulderRef s' = Arcade.prevShoulderRef s
      /\ Arcade.lastJumpTimeRef s' = Arcade.lastJumpTimeRef s).
Proof.
  assert (Hno : truthy (trim (Arcade.inputName s)) = false ->
                Arcade.handleNameSubmit now_ s = s).
  { intros H. unfold Arcade.handleNameSubmit. by rewrite H. }
  split; [|split; [exact Hno|]].
  - intros Hw. apply Hno. unfold trim.
    by rewrite (trimStart_allWhiteSpace _ Hw).
  - intros Ht s'. subst s'. unfold Arcade.handleNameSubmit. rewrite Ht. simpl.
    pose proof (wellFormedName_submitted _ Ht) as Hwf.
    do 4 (split; [done|]). split; [done|]. split; [exact Hwf|].
    split; [done|]. split; [by storage_lookup|]. repeat split; done.
Qed.

Lemma name_submit_starts_round_or_does_nothing_witness :
  Arcade.playerNameRef
    (Arcade.handleNameSubmit 5
       (Arcade.setInputName "  grace hopper  " (Arcade.init ∅ 0)))
  = "GRACE HOPP"
  /\ Arcade.handleNameSubmit 5 (Arcade.setInputName "   " (Arcade.init ∅ 0))
     = Arcade.setInputName "   " (Arcade.init ∅ 0).
Proof.
  split.
  - destruct (name_submit_starts_round_or_does_nothing 5
                (Arcade.setInputName "  grace hopper  " (Arcade.init ∅ 0)))
      as (_ & _ & H).
    destruct (H eq_refl) as (_ & _ & _ & _ & Hn & _).
    rewrite Hn; reflexivity.
  - destruct (name_submit_starts_round_or_does_nothing 5
                (Arcade.setInputName "   " (Arcade.init ∅ 0))) as (H & _).
    apply H. reflexivity.
Defined.

Lemma Arcade_idle_step ev s :
  isRoundStart ev = false -> Arcade.isGameActiveRef s = false ->
  snd (Arcade.step ev s) = None
  /\ Arcade.isGameActiveRef (fst (Arcade.step ev s)) = false
  /\ Arcade.jumpCountRef (fst (Arcade.step ev s)) = Arcade.jumpCountRef s
  /\ Arcade.lastJumpTimeRef (fst (Arcade.step ev s)) = Arcade.lastJumpTimeRef s
  /\ Arcade.pushed (fst (Arcade.step ev s)) = Arcade.pushed s.
Proof.
  intros Hev Ha. unfold Arcade.step.
  destruct (Arcade.offered ev s); [|done].
  destruct ev; simpl in *; try done.
  - unfold Arcade.handleCrash. by rewrite Arcade_handleGameOver_inactive.
  - unfold Arcade.onResults.
    destruct (poseLandmarks f); [|done].
    destruct (avgShoulderY _); [|done].
    rewrite Ha. simpl. by destruct (Arcade.prevShoulderRef s).
Qed.

Lemma Arcade_idle_run s evs :
  Arcade.isGameActiveRef s = false ->
  Forall (fun ev => isRoundStart ev = false) evs ->
  snd (Arcade.run evs s) = []
  /\ Arcade.isGameActiveRef (fst (Arcade.run evs s)) = false
  /\ Arcade.jumpCountRef (fst (Arcade.run evs s)) = Arcade.jumpCountRef s
  /\ Arcade.lastJumpTimeRef (fst (Arcade.run evs s)) = Arcade.lastJumpTimeRef s
  /\ Arcade.pushed (fst (Arcade.run evs s)) = Arcade.pushed s.
Proof.
  intros Ha Hevs. unfold Arcade.run.
  destruct (runWith_quiet Arcade.step
              (fun s' => Arcade.isGameActiveRef s' = false
                         /\ Arcade.jumpCountRef s' = Arcade.jumpCountRef s
                         /\ Arcade.lastJumpTimeRef s' = Arcade.lastJumpTimeRef s
                         /\ Arcade.pushed s' = Arcade.pushed s)
              (fun ev => isRoundStart ev = false)) with (evs := evs) (s := s)
    as [HP Hq]; [|done|done|by split].
  intros ev s0 Hev (Ha0 & Hj & Hl & Hp).
  destruct (Arcade_idle_step ev s0 Hev Ha0) as (Hn & Ha1 & Hj1 & Hl1 & Hp1).
  rewrite Ha1, Hj1, Hl1, Hp1. done.
Qed.


(** X5.  While no round is active, the arcade component emits no jump
    event and leaves the jump counter, the last jump time and the remote
    writes as they are, whatever frames, engine game overs, resets,
    snapshots and menu actions arrive, until a round is started. *)
Theorem idle_component_is_silent s evs :
  Arcade.isGameActiveRef s = false ->
  Forall (fun ev => isRoundStart ev = false) evs ->
  snd (Arcade.run evs s) = []
  /\ Arcade.isGameActiveRef (fst (Arcade.run evs s)) = false
  /\ Arcade.jumpCountRef (fst (Arcade.run evs s)) = Arcade.jumpCountRef s
  /\ Arcade.lastJumpTimeRef (fst (Arcade.run evs s)) = Arcade.lastJumpTimeRef s
  /\ Arcade.pushed (fst (Arcade.run evs s)) = Arcade.pushed s.
Proof. apply Arcade_idle_run. Qed.

Lemma idle_component_is_silent_witness :
  snd (Arcade.run [Arcade.EvFrame (frameAt 0.5 1000);
                   Arcade.EvFrame (frameAt 0.25 2000)] arcadeRoundEnded) = [].
Proof.
  apply (idle_component_is_silent arcadeRoundEnded); [reflexivity|].
  repeat constructor.
Defined.

(** X6.  [handleMainMenu] returns to the START screen with no round
    active and clears the player's identity in the state and in
    [localStorage]; statistics, streak, leaderboard and remote writes and
    their stored copies stay; frames that follow emit no jump event and
    leave the jump counter alone. *)
Theorem main_menu_clears_identity_only s :
  let s' := Arcade.handleMainMenu s in
  Arcade.gameState s' = Arcade.START
  /\ Arcade.isGameActiveRef s' = false
  /\ Arcade.playerName s' = EmptyString
  /\ Arcade.playerNameRef s' = EmptyString
  /\ Arcade.inputName s' = EmptyString
  /\ Arcade.localStorage s' !! PLAYER_NAME_KEY = None
  /\ Arcade.storedName (Arcade.localStorage s') = EmptyString
  /\ Arcade.localStorage s' !! STORAGE_KEYS.SESSION_STATS
     = Arcade.localStorage s !! STORAGE_KEYS.SESSION_STATS
  /\ Arcade.localStorage s' !! STORAGE_KEYS.STREAK
     = Arcade.localStorage s !! STORAGE_KEYS.STREAK
  /\ Arcade.localStorage s' !! STORAGE_KEYS.LEADERBOARD
     = Arcade.localStorage s !! STORAGE_KEYS.LEADERBOARD
  /\ Arcade.sessionStats s' = Arcade.sessionStats s
  /\ Arcade.streak s' = Arcade.streak s
  /\ Arcade.leaderboard s' = Arcade.leaderboard s
  /\ Arcade.pushed s' = Arcade.pushed s
  /\ (forall fs,
        snd (Arcade.run (Arcade.EvFrame <$> fs) s') = []
        /\ Arcade.jumpCountRef (fst (Arcade.run (Arcade.EvFrame <$> fs) s'))
           = Arcade.jumpCountRef s).
Proof.
  intros s'. subst s'. simpl. repeat apply conj; try done;
    try by storage_lookup.
  intros fs.
  destruct (Arcade_idle_run (Arcade.handleMainMenu s) (Arcade.EvFrame <$> fs))
    as (H1 & _ & H2 & _); [done| |by split].
  apply Forall_fmap, Forall_forall. done.
Qed.

(* ================================================================== *)
(** * Counting jumps and rounds *)

Lemma Local_onResults_rest f s :
  let s' := fst (Local.onResults f s) in
  Local.jumpCountRef s'
  = Local.jumpCountRef s
    + Z.of_nat (length (option_list (snd (Local.onResults f s))))
  /\ Local.roundStartRef s' = Local.roundStartRef s
  /\ Local.leaderboard s' = Local.leaderboard s
  /\ Local.sessionStats s' = Local.sessionStats s
  /\ Local.streak s' = Local.streak s
  /\ Local.localStorage s' = Local.localStorage s.
Proof.
  unfold Local.onResults.
  destruct (poseLandmarks f); simpl; [|repeat split; lia].
  destruct (avgShoulderY _); simpl; [|repeat split; lia].
  destruct (match Local.prevShoulderRef s with Some _ => _ | None => _ end);
    simpl; repeat split; lia.
Qed.

Lemma Arcade_onResults_rest f s :
  let s' := fst (Arcade.onResults f s) in
  Arcade.jumpCountRef s'
  = Arcade.jumpCountRef s
    + Z.of_nat (length (option_list (snd (Arcade.onResults f s))))
  /\ Arcade.roundStartRef s' = Arcade.roundStartRef s
  /\ Arcade.isGameActiveRef s' = Arcade.isGameActiveRef s
  /\ Arcade.playerNameRef s' = Arcade.playerNameRef s
  /\ Arcade.sessionStats s' = Arcade.sessionStats s
  /\ Arcade.streak s' = Arcade.streak s
  /\ Arcade.pushed s' = Arcade.pushed s.
Proof.
  unfold Arcade.onResults.
  destruct (poseLandmarks f); simpl; [|repeat split; lia].
  destruct (avgShoulderY _); simpl; [|repeat split; lia].
  destruct (match Arcade.prevShoulderRef s with Some _ => _ | None => _ end);
    simpl; repeat split; lia.
Qed.

Lemma Local_frames_rest fs s :
  let r := Local.run (Local.EvFrame <$> fs) s in
  Local.jumpCountRef (fst r) = Local.jumpCountRef s + Z.of_nat (length (snd r))
  /\ Local.roundStartRef (fst r) = Local.roundStartRef s
  /\ Local.leaderboard (fst r) = Local.leaderboard s
  /\ Local.sessionStats (fst r) = Local.sessionStats s
  /\ Local.streak (fst r) = Local.streak s
  /\ Local.localStorage (fst r) = Local.localStorage s.
Proof.
  unfold Local.run. revert s. induction fs as [|f fs IH]; intros s.
  - simpl. repeat split; lia.
  - rewrite fmap_cons, runWith_cons. simpl.
    destruct (Local_onResults_rest f s) as (H1 & H2 & H3 & H4 & H5 & H6).
    destruct (IH (fst (Local.onResults f s))) as (I1 & I2 & I3 & I4 & I5 & I6).
    rewrite I1, I2, I3, I4, I5, I6, H1, H2, H3, H4, H5, H6.
    rewrite length_app. repeat split; lia.
Qed.

Lemma Arcade_frames_rest fs s :
  let r := Arcade.run (Arcade.EvFrame <$> fs) s in
  Arcade.jumpCountRef (fst r) = Arcade.jumpCountRef s + Z.of_nat (length (snd r))
  /\ Arcade.roundStartRef (fst r) = Arcade.roundStartRef s
  /\ Arcade.isGameActiveRef (fst r) = Arcade.isGameActiveRef s
  /\ Arcade.playerNameRef (fst r) = Arcade.playerNameRef s
  /\ Arcade.sessionStats (fst r) = Arcade.sessionStats s
  /\ Arcade.streak (fst r) = Arcade.streak s
  /\ Arcade.pushed (fst r) = Arcade.pushed s.
Proof.
  unfold Arcade.run. revert s. induction fs as [|f fs IH]; intros s.
  - simpl. repeat split; lia.
  - rewrite fmap_cons, runWith_cons.
    change (Arcade.step (Arcade.EvFrame f) s) with (Arcade.onResults f s).
    simpl.
    destruct (Arcade_onResults_rest f s) as (H1 & H2 & H3 & H4 & H5 & H6 & H7).
    destruct (IH (fst (Arcade.onResults f s)))
      as (I1 & I2 & I3 & I4 & I5 & I6 & I7).
    rewrite I1, I2, I3, I4, I5, I6, I7, H1, H2, H3, H4, H5, H6, H7.
    rewrite length_app. repeat split; lia.
Qed.

(** X7.  Over any frames the jump counter grows by the number of jump
    events emitted.  So the round that [handleRetry] starts, frames drive
    and [handleGameOver] ends is written to the remote leaderboard with
    exactly the number of jumps emitted in it, and that number is added to
    the total; in the version with the local leaderboard the row of a
    round carries the jumps counted since the round before. *)
Theorem jump_counter_counts_emitted_jumps :
  (forall fs s,
     Local.jumpCountRef (fst (Local.run (Local.EvFrame <$> fs) s))
     = Local.jumpCountRef s
       + Z.of_nat (length (snd (Local.run (Local.EvFrame <$> fs) s))))
  /\ (forall fs s,
        Arcade.jumpCountRef (fst (Arcade.run (Arcade.EvFrame <$> fs) s))
        = Arcade.jumpCountRef s
          + Z.of_nat (length (snd (Arcade.run (Arcade.EvFrame <$> fs) s))))
  /\ (forall now_ fs env s,
        truthy (Arcade.playerNameRef s) = true ->
        let r := Arcade.run (Arcade.EvFrame <$> fs) (Arcade.handleRetry now_ s) in
        let s' := Arcade.handleGameOver env (fst r) in
        exists rec,
          Arcade.pushed s' = Arcade.pushed s ++ [rec]
          /\ Arcade.jumps rec = Z.of_nat (length (snd r))
          /\ Arcade.name rec = Arcade.playerNameRef s
          /\ Arcade.score rec = readScore (Arcade.digits env)
          /\ totalJumps (Arcade.sessionStats s')
             = totalJumps (Arcade.sessionStats s) + Z.of_nat (length (snd r)))
  /\ (forall env0 fs env s,
        let r := Local.run (Local.EvFrame <$> fs) (Local.handleGameOver env0 s) in
        let s' := Local.handleGameOver env (fst r) in
        totalJumps (Local.sessionStats s')
        = totalJumps (Local.sessionStats (Local.handleGameOver env0 s))
          + Z.of_nat (length (snd r))).
Proof.
  split; [intros fs s; apply Local_frames_rest|].
  split; [intros fs s; apply Arcade_frames_rest|]. split.
  - intros now_ fs env s Hn r s'. subst r s'.
    destruct (Arcade_frames_rest fs (Arcade.handleRetry now_ s))
      as (H1 & H2 & H3 & H4 & H5 & H6 & H7).
    simpl in H1, H2, H3, H4, H5, H6, H7.
    destruct (Arcade_handleGameOver_active env _ H3)
      as (_ & _ & _ & Hst & _ & Hp).
    rewrite H4, Hn, H7 in Hp.
    eexists. split; [exact Hp|]. unfold Arcade.roundRecord. simpl.
    rewrite Hst, H1, H4, H5. simpl. repeat split; lia.
  - intros env0 fs env s r s'. subst r s'.
    destruct (Local_frames_rest fs (Local.handleGameOver env0 s))
      as (H1 & _ & _ & H4 & _).
    simpl in H1. unfold Local.handleGameOver at 1. simpl.
    rewrite H4, H1. simpl. lia.
Qed.

Lemma jump_counter_counts_emitted_jumps_witness :
  exists rec,
    Arcade.pushed
      (Arcade.handleGameOver (Arcade.mkEnv None 9000 9000)
         (fst (Arcade.run
                 (Arcade.EvFrame <$> [frameAt 0.5 1000; frameAt 0.25 2000])
                 (Arcade.handleRetry 500 arcadeRoundEnded))))
    = Arcade.pushed arcadeRoundEnded ++ [rec]
    /\ Arcade.jumps rec = 1.
Proof.
  destruct jump_counter_counts_emitted_jumps as (_ & _ & H & _).
  destruct (H 500 [frameAt 0.5 1000; frameAt 0.25 2000]
              (Arcade.mkEnv None 9000 9000) arcadeRoundEnded eq_refl)
    as (rec & Hp & Hj & _).
  exists rec. split; [exact Hp|]. rewrite Hj. reflexivity.
Defined.

(* ================================================================== *)
(** * Slow movement and the rate of jumps *)

Lemma jumpTest_below diff now_ last :
  PrimFloat.ltb lit_0_04 diff = false -> jumpTest diff now_ last = false.
Proof. intros H. unfold jumpTest. by rewrite H. Qed.

Lemma Basic_gentle fs s :
  gentle (Basic.prevShoulderRef s) fs -> snd (Basic.run fs s) = [].
Proof.
  unfold Basic.run. revert s. induction fs as [|f fs IH]; intros s Hg; [done|].
  rewrite runWith_cons. simpl in Hg.
  pose proof (Basic_onResults_prev f s) as Hprev.
  destruct (sampleOf f) as [y|] eqn:Hf.
  - destruct Hg as [Hd Hg]. rewrite <- Hprev in Hg.
    rewrite (IH _ Hg), app_nil_r.
    destruct (Basic.prevShoulderRef s) as [p|] eqn:Hp.
    + by rewrite (Basic_onResults_sample f s y p Hf Hp), (jumpTest_below _ _ _ Hd).
    + by rewrite (Basic_onResults_first f s Hp).
  - rewrite (Basic_onResults_lost f s Hf). simpl. by apply IH.
Qed.

Lemma Local_gentle fs s :
  gentle (Local.prevShoulderRef s) fs ->
  snd (Local.run (Local.EvFrame <$> fs) s) = [].
Proof.
  unfold Local.run. revert s. induction fs as [|f fs IH]; intros s Hg; [done|].
  rewrite fmap_cons, runWith_cons. simpl in Hg |- *.
  pose proof (Local_onResults_prev f s) as Hprev.
  destruct (sampleOf f) as [y|] eqn:Hf.
  - destruct Hg as [Hd Hg]. rewrite <- Hprev in Hg.
    rewrite (IH _ Hg), app_nil_r.
    destruct (Local.prevShoulderRef s) as [p|] eqn:Hp.
    + by rewrite (Local_onResults_sample f s y p Hf Hp), (jumpTest_below _ _ _ Hd).
    + by rewrite (Local_onResults_first f s Hp).
  - rewrite (Local_onResults_lost f s Hf). simpl. by apply IH.
Qed.

Lemma Arcade_gentle fs s :
  gentle (Arcade.prevShoulderRef s) fs ->
  snd (Arcade.run (Arcade.EvFrame <$> fs) s) = [].
Proof.
  unfold Arcade.run. revert s. induction fs as [|f fs IH]; intros s Hg; [done|].
  rewrite fmap_cons, runWith_cons.
  change (Arcade.step (Arcade.EvFrame f) s) with (Arcade.onResults f s).
  simpl in Hg |- *.
  pose proof (Arcade_onResults_prev f s) as Hprev.
  destruct (sampleOf f) as [y|] eqn:Hf.
  - destruct Hg as [Hd Hg]. rewrite <- Hprev in Hg.
    rewrite (IH _ Hg), app_nil_r.
    destruct (Arcade.prevShoulderRef s) as [p|] eqn:Hp.
    + rewrite (Arcade_onResults_sample f s y p Hf Hp), (jumpTest_below _ _ _ Hd).
      by rewrite andb_false_r.
    + by rewrite (Arcade_onResults_first f s Hp).
  - rewrite (Arcade_onResults_lost f s Hf). simpl. by apply IH.
Qed.

(** X8.  The detector compares a sample with the one just before it and
    with nothing else: frames in which no sample rises more than 0.04
    above its predecessor emit no jump event, in every version, however
    far the shoulders rise in all and however long the frames last. *)
Theorem slow_rise_never_jumps :
  (forall fs s, gentle (Basic.prevShoulderRef s) fs ->
     snd (Basic.run fs s) = [])
  /\ (forall fs s, gentle (Local.prevShoulderRef s) fs ->
        snd (Local.run (Local.EvFrame <$> fs) s) = [])
  /\ (forall fs s, gentle (Arcade.prevShoulderRef s) fs ->
        snd (Arcade.run (Arcade.EvFrame <$> fs) s) = []).
Proof.
  split; [exact Basic_gentle|]. split; [exact Local_gentle | exact Arcade_gentle].
Qed.

Lemma slow_rise_never_jumps_witness :
  snd (Basic.run [frameAt 0.5 0; frameAt 0.46875 1000; frameAt 0.4375 2000;
                  frameAt 0.40625 3000; frameAt 0.375 4000] Basic.init) = [].
Proof.
  destruct slow_rise_never_jumps as [H _]. apply H.
  simpl. repeat split; reflexivity.
Defined.

Section EventTimes.
Context {S Ev : Type} (step : Ev -> S -> S * option JumpEvent).
Context (inWindow : Ev -> Prop) (a b : Z).
Hypothesis step_time : forall ev s j,
  inWindow ev -> snd (step ev s) = Some j -> a <= t j <= b.

Lemma runWith_times evs s :
  Forall inWindow evs -> Forall (fun j => a <= t j <= b) (snd (runWith step evs s)).
Proof.
  revert s. induction evs as [|ev evs IH]; intros s Hevs.
  - constructor.
  - apply Forall_cons in Hevs as [Hev Hevs]. rewrite runWith_cons. simpl.
    apply Forall_app. split; [|by apply IH].
    destruct (snd (step ev s)) as [j|] eqn:E; simpl; [|constructor].
    apply Forall_singleton. by apply (step_time ev s).
Qed.
End EventTimes.

Lemma spaced_span b j js :
  spaced (j :: js) -> Forall (fun j' => t j' <= b) (j :: js) ->
  t j + 500 * Z.of_nat (length js) <= b.
Proof.
  unfold spaced. revert j. induction js as [|k js IH]; intros j Hs Hb.
  - apply Forall_cons in Hb as [Hj _]. simpl. lia.
  - inversion Hs as [|? ? Hall Hrest]; subst.
    apply Forall_cons in Hall as [Hk _].
    apply Forall_cons in Hb as [_ Hb].
    specialize (IH k Hrest Hb).
    simpl length. rewrite Nat2Z.inj_succ. lia.
Qed.

Lemma spaced_count a b js :
  a <= b -> spaced js -> Forall (fun j => a <= t j <= b) js ->
  Z.of_nat (length js) <= 1 + (b - a) / 500.
Proof.
  intros Hab Hs Hw.
  assert (H0 : 0 <= (b - a) / 500) by (apply Z.div_pos; lia).
  destruct js as [|j js]; [simpl; lia|].
  assert (Hspan : t j + 500 * Z.of_nat (length js) <= b).
  { apply spaced_span; [done|].
    eapply Forall_impl; [exact Hw|]. simpl. intros; lia. }
  apply Forall_cons in Hw as [Hj _].
  assert (Z.of_nat (length js) <= (b - a) / 500)
    by (apply Z.div_le_lower_bound; lia).
  simpl length. rewrite Nat2Z.inj_succ. lia.
Qed.

(** X9.  In every version, when the frames of a run all carry clock
    readings between [a] and [b], the run emits at most 1 + (b - a) / 500
    jump events: fewer than two a second plus one. *)
Theorem jump_rate_bounded a b :
  a <= b ->
  (forall fs s,
     Forall (fun f => a <= now f <= b) fs ->
     Z.of_nat (length (snd (Basic.run fs s))) <= 1 + (b - a) / 500)
  /\ (forall evs s,
        Forall (fun ev => forall f, ev = Local.EvFrame f -> a <= now f <= b) evs ->
        Z.of_nat (length (snd (Local.run evs s))) <= 1 + (b - a) / 500)
  /\ (forall evs s,
        Forall (fun ev => forall f, ev = Arcade.EvFrame f -> a <= now f <= b) evs ->
        Z.of_nat (length (snd (Arcade.run evs s))) <= 1 + (b - a) / 500).
Proof.
  intros Hab. repeat apply conj.
  - intros fs s Hfs. apply (spaced_count a b); [done| |].
    + apply (runWith_spaced Basic.onResults Basic.lastJumpTimeRef
               Basic_step_refractory).
    + apply (runWith_times Basic.onResults (fun f => a <= now f <= b));
        [|done].
      intros f s0 j Hf Hj. pose proof (Basic_onResults_step f s0) as H.
      rewrite Hj in H. destruct H as (-> & _). done.
  - intros evs s Hevs. apply (spaced_count a b); [done| |].
    + apply (runWith_spaced Local.step Local.lastJumpTimeRef
               Local_step_refractory).
    + apply (runWith_times Local.step
               (fun ev => forall f, ev = Local.EvFrame f -> a <= now f <= b));
        [|done].
      intros ev s0 j Hev Hj. destruct ev; simpl in Hj; try done.
      pose proof (Local_onResults_step f s0) as H.
      rewrite Hj in H. destruct H as (-> & _). by apply Hev.
  - intros evs s Hevs. apply (spaced_count a b); [done| |].
    + apply (runWith_spaced Arcade.step Arcade.lastJumpTimeRef
               Arcade_step_refractory).
    + apply (runWith_times Arcade.step
               (fun ev => forall f, ev = Arcade.EvFrame f -> a <= now f <= b));
        [|done].
      intros ev s0 j Hev Hj. unfold Arcade.step in Hj.
      destruct (Arcade.offered ev s0); [|done].
      destruct ev; simpl in Hj; try done.
      pose proof (Arcade_onResults_step f s0) as H.
      rewrite Hj in H. destruct H as (-> & _). by apply Hev.
Qed.

Lemma jump_rate_bounded_witness :
  Z.of_nat
    (length (snd (Basic.run [frameAt 0.5 1000; frameAt 0.25 1600;
                             frameAt 0.125 1700; frameAt 0 2000] Basic.init)))
  <= 1 + (2000 - 1000) / 500.
Proof.
  assert (H : 1000 <= 2000) by lia.
  destruct (jump_rate_bounded 1000 2000 H) as [HB _].
  apply HB. repeat constructor; simpl; lia.
Defined.

(* ================================================================== *)
(** * Rounds, remote writes and stored copies *)

Lemma Arcade_step_push ev s :
  arcadeInv s ->
  exists recs,
    Arcade.pushed (fst (Arcade.step ev s)) = Arcade.pushed s ++ recs
    /\ (ev <> Arcade.EvResetStats ->
        roundsPlayed (Arcade.sessionStats (fst (Arcade.step ev s)))
        = roundsPlayed (Arcade.sessionStats s) + Z.of_nat (length recs)).
Proof.
  intros (Hact & Hname & _). unfold Arcade.step.
  assert (Hsame : exists recs : list Arcade.FirebaseRecord,
             Arcade.pushed s = Arcade.pushed s ++ recs
             /\ (ev <> Arcade.EvResetStats ->
                 roundsPlayed (Arcade.sessionStats s)
                 = roundsPlayed (Arcade.sessionStats s) + Z.of_nat (length recs))).
  { exists []. rewrite app_nil_r. split; [done|]. simpl. lia. }
  destruct (Arcade.offered ev s); [|exact Hsame].
  destruct ev; simpl; try exact Hsame.
  - unfold Arcade.handleNameSubmit.
    destruct (truthy (trim (Arcade.inputName s))); exact Hsame.
  - unfold Arcade.handleCrash, Arcade.handleGameOver.
    destruct (Arcade.isGameActiveRef s) eqn:A; simpl; [|exact Hsame].
    rewrite Hname by (by rewrite (Hact eq_refl)).
    exists [Arcade.roundRecord env s]. done.
  - destruct (Arcade_onResults_rest f s) as (_ & _ & _ & _ & H5 & _ & H7).
    simpl in H5, H7. by rewrite H5, H7.
  - exists []. rewrite app_nil_r. done.
Qed.

Lemma Arcade_run_push evs s :
  arcadeInv s ->
  exists recs,
    Arcade.pushed (fst (Arcade.run evs s)) = Arcade.pushed s ++ recs
    /\ (Forall (fun ev => ev <> Arcade.EvResetStats) evs ->
        roundsPlayed (Arcade.sessionStats (fst (Arcade.run evs s)))
        = roundsPlayed (Arcade.sessionStats s) + Z.of_nat (length recs)).
Proof.
  unfold Arcade.run. revert s. induction evs as [|ev evs IH]; intros s Hs.
  - exists []. rewrite app_nil_r. split; [done|]. simpl. lia.
  - rewrite runWith_cons. simpl.
    destruct (Arcade_step_push ev s Hs) as (r1 & Hp1 & Hr1).
    destruct (IH _ (Arcade_step_inv ev s Hs)) as (r2 & Hp2 & Hr2).
    exists (r1 ++ r2). rewrite Hp2, Hp1, <- app_assoc. split; [done|].
    intros [Hev Hevs]%Forall_cons.
    rewrite (Hr2 Hevs), (Hr1 Hev), length_app. lia.
Qed.

(** X10.  The arcade component only ever appends to its remote writes,
    and as long as the statistics are not reset the number of rounds
    played grows by exactly the number of records written: every round
    counted is written once and every record written is a round counted. *)
Theorem rounds_and_records_in_step s evs :
  Arcade.reachable s ->
  let s' := fst (Arcade.run evs s) in
  Arcade.pushed s `prefix_of` Arcade.pushed s'
  /\ (Forall (fun ev => ev <> Arcade.EvResetStats) evs ->
      roundsPlayed (Arcade.sessionStats s') - roundsPlayed (Arcade.sessionStats s)
      = Z.of_nat (length (Arcade.pushed s'))
        - Z.of_nat (length (Arcade.pushed s))).
Proof.
  intros Hr s'. subst s'.
  destruct (Arcade_run_push evs s (Arcade_reachable_inv s Hr))
    as (recs & Hp & Hrounds).
  split; [by exists recs|].
  intros Hevs. rewrite (Hrounds Hevs), Hp, length_app. lia.
Qed.

Lemma rounds_and_records_in_step_witness :
  roundsPlayed
    (Arcade.sessionStats
       (fst (Arcade.run [Arcade.EvGameOver (Arcade.mkEnv None 9000 9000);
                         Arcade.EvGameOver (Arcade.mkEnv None 9001 9001);
                         Arcade.EvRetry 9500;
                         Arcade.EvGameOver (Arcade.mkEnv None 9900 9900)]
               arcadeRoundStarted)))
  - roundsPlayed (Arcade.sessionStats arcadeRoundStarted)
  = 2 - 0.
Proof.
  destruct (rounds_and_records_in_step arcadeRoundStarted
              [Arcade.EvGameOver (Arcade.mkEnv None 9000 9000);
               Arcade.EvGameOver (Arcade.mkEnv None 9001 9001);
               Arcade.EvRetry 9500;
               Arcade.EvGameOver (Arcade.mkEnv None 9900 9900)]
              arcadeRoundStarted_reachable) as [_ H].
  rewrite H; [reflexivity|]. repeat constructor; discriminate.
Defined.

Lemma Local_step_facts ev s : localFacts s -> localFacts (fst (Local.step ev s)).
Proof.
  intros Hs. pose proof Hs as (Hlb & Hst & Hsk & Hjc).
  destruct ev; simpl.
  - destruct (Local_onResults_rest f s) as (H1 & _ & H3 & H4 & H5 & H6).
    simpl in H1, H3, H4, H5, H6.
    unfold localFacts. rewrite H1, H3, H4, H5, H6.
    repeat split; try done. lia.
  - unfold localFacts. simpl. repeat split; try done; by storage_lookup.
  - exact Hs.
  - unfold localFacts. simpl. repeat split; try done; by storage_lookup.
  - unfold localFacts. simpl. repeat split; try done; by storage_lookup.
Qed.

Lemma Local_run_facts evs s : localFacts s -> localFacts (fst (Local.run evs s)).
Proof.
  unfold Local.run. revert s.
  induction evs as [|ev evs IH]; intros s Hs; [done|].
  rewrite runWith_cons. simpl. by apply IH, Local_step_facts.
Qed.

Lemma Local_step_shaped ev s :
  wellShaped (Local.localStorage s) = true ->
  wellShaped (Local.localStorage (fst (Local.step ev s))) = true.
Proof.
  rewrite !wellShaped_items. intros (H1 & H2 & H3).
  destruct ev; simpl.
  - unfold Local.onResults.
    destruct (poseLandmarks f); [|done].
    by destruct (avgShoulderY _).
  - repeat split; shape_lookup.
  - done.
  - repeat split; shape_lookup.
  - repeat split; shape_lookup.
Qed.

Lemma Local_run_shaped evs s :
  wellShaped (Local.localStorage s) = true ->
  wellShaped (Local.localStorage (fst (Local.run evs s))) = true.
Proof.
  unfold Local.run. revert s.
  induction evs as [|ev evs IH]; intros s Hs; [done|].
  rewrite runWith_cons. simpl. by apply IH, Local_step_shaped.
Qed.

(** X11.  Mounted on a storage whose items are of the shapes the component
    writes, and with game overs whose scores are below 2^53, the version
    with the local leaderboard keeps the storage in those shapes and in
    step with its state: what [loadStored] returns for the leaderboard and
    for the streak is the leaderboard and the streak of the state, and, as
    long as the total play time is a finite number, what it returns for
    the statistics is the statistics of the state.  A component mounted on
    that storage then starts with this leaderboard, streak and, under the
    same condition, statistics.  The jump counter is never negative. *)
Theorem local_storage_mirrors_state ls now_ evs :
  wellShaped ls = true ->
  forallb localExactScore evs = true ->
  let s := fst (Local.run evs (Local.init ls now_)) in
  wellShaped (Local.localStorage s) = true
  /\ loadStored STORAGE_KEYS.LEADERBOARD (StoredLeaderboard [])
       (Local.localStorage s)
     = StoredLeaderboard (Local.leaderboard s)
  /\ loadStored STORAGE_KEYS.STREAK (StoredStreak emptyStreak)
       (Local.localStorage s)
     = StoredStreak (Local.streak s)
  /\ 0 <= Local.jumpCountRef s
  /\ (is_finite (totalPlayTime (Local.sessionStats s)) = true ->
      loadStored STORAGE_KEYS.SESSION_STATS (StoredStats emptyStats)
        (Local.localStorage s)
      = StoredStats (Local.sessionStats s))
  /\ (forall now',
        let s' := Local.init (Local.localStorage s) now' in
        Local.leaderboard s' = Local.leaderboard s
        /\ Local.streak s' = Local.streak s
        /\ (is_finite (totalPlayTime (Local.sessionStats s)) = true ->
            Local.sessionStats s' = Local.sessionStats s)).
Proof.
  intros Hls _ s.
  assert (H : localFacts s).
  { apply Local_run_facts. by repeat split. }
  destruct H as (Hlb & Hst & Hsk & Hjc).
  assert (Hw : wellShaped (Local.localStorage s) = true)
    by (by apply Local_run_shaped).
  split; [exact Hw|].
  split; [by rewrite (wellShaped_loadLeaderboard _ Hw), Hlb|].
  split; [by rewrite (wellShaped_loadStreak _ Hw), Hsk|].
  split; [exact Hjc|].
  split; [intros _; by rewrite (wellShaped_loadStats _ Hw), Hst|].
  intros now' s'. subst s'. simpl. by rewrite Hlb, Hsk, Hst.
Qed.

Lemma local_storage_mirrors_state_witness :
  loadStored STORAGE_KEYS.SESSION_STATS (StoredStats emptyStats)
    (Local.localStorage localSecondSession)
  = StoredStats (Local.sessionStats localSecondSession)
  /\ roundsPlayed (Local.sessionStats localSecondSession) = 2
  /\ length (Local.leaderboard localSecondSession) = 1%nat.
Proof.
  destruct (local_storage_mirrors_state earlierSession 0
              [Local.EvGameOver gameOverAt7s])
    as (_ & _ & _ & _ & Hst & _); [by vm_compute..|].
  split; [apply Hst; by vm_compute|].
  split; by vm_compute.
Defined.

Lemma Local_step_rounds ev s :
  ev <> Local.EvResetStats ->
  roundsPlayed (Local.sessionStats (fst (Local.step ev s)))
  = roundsPlayed (Local.sessionStats s)
    + Z.of_nat (gameOvers [ev]).
Proof.
  intros Hev. unfold gameOvers. destruct ev; simpl; try done; try lia.
  destruct (Local_onResults_rest f s) as (_ & _ & _ & H4 & _).
  simpl in H4. rewrite H4. lia.
Qed.

(** X12.  The version with the local leaderboard counts one round for
    every game-over call it receives: over any events other than a reset
    of the statistics, the number of rounds played grows by the number of
    game-over events among them. *)
Theorem local_rounds_count_game_overs evs s :
  Forall (fun ev => ev <> Local.EvResetStats) evs ->
  roundsPlayed (Local.sessionStats (fst (Local.run evs s)))
  = roundsPlayed (Local.sessionStats s) + Z.of_nat (gameOvers evs).
Proof.
  unfold Local.run. revert s. induction evs as [|ev evs IH]; intros s Hevs.
  - simpl. unfold gameOvers. simpl. lia.
  - apply Forall_cons in Hevs as [Hev Hevs].
    rewrite runWith_cons. simpl. rewrite (IH _ Hevs), (Local_step_rounds ev s Hev).
    unfold gameOvers. simpl. destruct (isGameOver ev); simpl; lia.
Qed.

Lemma local_rounds_count_game_overs_witness :
  roundsPlayed
    (Local.sessionStats
       (fst (Local.run [Local.EvGameOver gameOverAt7s; Local.EvHighlightTimeout;
                        Local.EvGameOver gameOverAt7s] localRoundPlayed)))
  = 0 + 2.
Proof.
  rewrite local_rounds_count_game_overs; [reflexivity|].
  repeat constructor; discriminate.
Defined.

(* ================================================================== *)
(** * More on the local leaderboard *)

Section RankFacts.
Context {A : Type} (key : A -> Z).

Lemma descending_filter (P : A -> Prop) `{!forall x, Decision (P x)} l :
  descending key l -> descending key (filter P l).
Proof.
  unfold descending. induction 1 as [|x l Hs IH Hx]; [constructor|].
  rewrite filter_cons. destruct (decide (P x)); [|done].
  constructor; [done|]. rewrite Forall_forall in Hx |- *.
  intros y [_ Hy]%list_elem_of_filter. by apply Hx.
Qed.

Lemma filter_filter_none (P Q : A -> Prop)
    `{!forall x, Decision (P x), !forall x, Decision (Q x)} (l : list A) :
  (forall x, P x -> ~ Q x) -> filter P (filter Q l) = [].
Proof.
  intros HPQ. induction l as [|x l IH]; [done|].
  rewrite (filter_cons Q). destruct (decide (Q x)) as [Hq|Hq]; [|done].
  rewrite filter_cons_False; [done|]. intros Hp. by apply (HPQ x).
Qed.

(** A row appended to the list goes, in the sorted list, behind the rows
    that score at least as much and before the rows that score less. *)
Lemma sortByScoreDesc_snoc prev entry :
  sortByScoreDesc key (prev ++ [entry])
  = filter (fun e => key entry <= key e) (sortByScoreDesc key prev)
    ++ entry :: filter (fun e => key e < key entry) (sortByScoreDesc key prev).
Proof.
  set (sp := sortByScoreDesc key prev).
  assert (Hsp : descending key sp) by apply sortByScoreDesc_descending.
  apply (sorted_stable_unique key).
  - apply sortByScoreDesc_descending.
  - unfold descending. apply StronglySorted_app_2.
    + intros x1 x2 [Hx1 _]%list_elem_of_filter Hx2.
      apply elem_of_cons in Hx2 as [->|[Hx2 _]%list_elem_of_filter]; lia.
    + by apply descending_filter.
    + constructor; [by apply descending_filter|].
      rewrite Forall_forall. intros y [Hy _]%list_elem_of_filter. lia.
  - intros k. rewrite (sortByScoreDesc_stable key (prev ++ [entry]) k).
    rewrite !filter_app, (filter_cons _ entry), filter_nil.
    rewrite <- (sortByScoreDesc_stable key prev k). fold sp.
    destruct (decide (key entry = k)) as [Hk|Hk].
    + rewrite (filter_cons_True _ entry) by done.
      rewrite (list_filter_filter_l (fun e => key e = k)) by (intros; lia).
      rewrite (filter_filter_none (fun e => key e = k)) by (intros; lia).
      done.
    + rewrite (filter_cons_False _ entry) by done. rewrite app_nil_r.
      destruct (decide (key entry <= k)).
      * rewrite (list_filter_filter_l (fun e => key e = k)) by (intros; lia).
        rewrite (filter_filter_none (fun e => key e = k)) by (intros; lia).
        by rewrite app_nil_r.
      * rewrite (filter_filter_none (fun e => key e = k)
                   (fun e => key entry <= key e)) by (intros; lia).
        by rewrite (list_filter_filter_l (fun e => key e = k)) by (intros; lia).
Qed.

Lemma length_filter_sorted (P : A -> Prop) `{!forall x, Decision (P x)} l :
  length (filter P (sortByScoreDesc key l)) = length (filter P l).
Proof. by rewrite sortByScoreDesc_perm. Qed.
End RankFacts.

Lemma findIndex_bounds {A} (p : A -> bool) (l : list A) :
  -1 <= findIndex p l < Z.of_nat (length l).
Proof.
  unfold findIndex.
  destruct (findIndexFrom_spec p l 0) as [[-> _]|(n & x & -> & Hx & _)]; [lia|lia|].
  apply lookup_lt_Some in Hx. lia.
Qed.

(** X13.  The rank of a new row is the number of earlier rows that score
    at least as much: in the sorted list the new row stands at that
    position, behind rows that score no less and before rows that score
    less; it is kept on the board exactly when fewer than five earlier
    rows score at least as much, so a tie with the fifth row does not
    enter; and when no earlier row has its date and score, that position,
    or [-1] when it is cut off, is the index reported. *)
Theorem rank_is_count_of_rows_not_below prev entry :
  let n := length (filter (fun e => Local.score entry <= Local.score e) prev) in
  let sorted := sortByScoreDesc Local.score (prev ++ [entry]) in
  sorted !! n = Some entry
  /\ (forall i e, (i < n)%nat -> sorted !! i = Some e ->
        Local.score entry <= Local.score e)
  /\ (forall i e, (n < i)%nat -> sorted !! i = Some e ->
        Local.score e < Local.score entry)
  /\ ((n < 5)%nat -> Local.withEntry entry prev !! n = Some entry)
  /\ ((5 <= n)%nat ->
      forall i, Local.withEntry entry prev !! i = Some entry -> entry ∈ prev)
  /\ ((forall e, e ∈ prev ->
         ~ (Local.date e = Local.date entry
            /\ Local.score e = Local.score entry)) ->
      findIndex (Local.sameDateAndScore entry) (Local.withEntry entry prev)
      = if (n <? 5)%nat then Z.of_nat n else -1).
Proof.
  intros n sorted.
  set (sp := sortByScoreDesc Local.score prev).
  set (above := filter (fun e => Local.score entry <= Local.score e) sp).
  set (below := filter (fun e => Local.score e < Local.score entry) sp).
  assert (Hsplit : sorted = above ++ entry :: below)
    by apply sortByScoreDesc_snoc.
  assert (Hn : length above = n) by apply length_filter_sorted.
  assert (Hat : sorted !! n = Some entry)
    by (rewrite Hsplit; by apply list_lookup_middle).
  assert (Habove : forall i e, (i < n)%nat -> sorted !! i = Some e -> e ∈ above).
  { intros i e Hi He. rewrite Hsplit, lookup_app_l in He by lia.
    by apply list_elem_of_lookup_2 in He. }
  assert (Hbelow : forall i e, (n < i)%nat -> sorted !! i = Some e -> e ∈ below).
  { intros i e Hi He. rewrite Hsplit, lookup_app_r in He by lia.
    rewrite Hn in He. destruct (i - n)%nat as [|m] eqn:Em; [lia|].
    simpl in He. by apply list_elem_of_lookup_2 in He. }
  assert (Hprev : forall e, e ∈ sp -> e ∈ prev).
  { intros e He. unfold sp in He. by rewrite sortByScoreDesc_perm in He. }
  split; [done|]. split.
  { intros i e Hi He. by apply Habove, list_elem_of_filter in He as [? _]. }
  split.
  { intros i e Hi He. by apply Hbelow, list_elem_of_filter in He as [? _]. }
  split.
  { intros Hlt. unfold Local.withEntry. by rewrite lookup_take_lt. }
  split.
  { intros Hge i Hi. unfold Local.withEntry in Hi.
    apply lookup_take_Some in Hi as [Hi Hi5].
    apply Hprev. apply (Habove i entry) in Hi; [|lia].
    by apply list_elem_of_filter in Hi as [_ ?]. }
  intros Hfresh.
  assert (Hnotin : entry ∉ prev).
  { intros Hin. by apply (Hfresh entry Hin). }
  assert (Huniq : forall i, sorted !! i = Some entry -> i = n).
  { intros i Hi. destruct (lt_eq_lt_dec i n) as [[Hlt| ->]|Hgt]; [|done|].
    - apply Habove, list_elem_of_filter in Hi as [_ Hi]; [|done].
      by apply Hprev in Hi.
    - apply Hbelow, list_elem_of_filter in Hi as [_ Hi]; [|done].
      by apply Hprev in Hi. }
  pose proof (findIndex_reports_rank entry prev Hfresh) as Hrank.
  pose proof (findIndex_bounds (Local.sameDateAndScore entry)
                (Local.withEntry entry prev)) as Hb.
  unfold reportsRankOf in Hrank.
  set (idx := findIndex (Local.sameDateAndScore entry)
                (Local.withEntry entry prev)) in *.
  destruct (idx =? -1) eqn:E.
  - apply Z.eqb_eq in E. rewrite E.
    destruct (n <? 5)%nat eqn:E5; [|done].
    apply Nat.ltb_lt in E5. destruct Hrank.
    apply (list_elem_of_lookup_2 _ n). unfold Local.withEntry.
    by rewrite lookup_take_lt.
  - apply Z.eqb_neq in E. destruct Hrank as [H0 Hi].
    unfold Local.withEntry in Hi.
    apply lookup_take_Some in Hi as [Hi Hi5].
    apply Huniq in Hi.
    assert ((n <? 5)%nat = true) as -> by (apply Nat.ltb_lt; lia).
    lia.
Qed.

Lemma rank_is_count_of_rows_not_below_witness :
  findIndex (Local.sameDateAndScore (Local.mkEntry 60 9 1 1))
    (Local.withEntry (Local.mkEntry 60 9 1 1) sampleBoard)
  = -1.
Proof.
  destruct (rank_is_count_of_rows_not_below sampleBoard (Local.mkEntry 60 9 1 1))
    as (_ & _ & _ & _ & _ & H).
  rewrite H; [reflexivity|].
  intros e He [Hd _]. revert He Hd.
  unfold sampleBoard. rewrite !elem_of_cons, elem_of_nil.
  intros [->|[->|[->|[->|[->|[]]]]]]; simpl; lia.
Defined.

Lemma descending_take {A} (key : A -> Z) (n : nat) (l : list A) :
  descending key l -> descending key (take n l).
Proof.
  unfold descending. intros Hl. rewrite <- (take_drop n l) in Hl.
  by apply StronglySorted_app_1_l in Hl.
Qed.

Lemma findIndex_found {A} (p : A -> bool) (l : list A) :
  (findIndex p l = -1 -> Forall (fun x => p x = false) l)
  /\ (findIndex p l <> -1 ->
      exists x, l !! Z.to_nat (findIndex p l) = Some x /\ p x = true).
Proof.
  unfold findIndex.
  destruct (findIndexFrom_spec p l 0)
    as [[Hi Hall]|(n & x & Hi & Hx & Hp & _)]; [lia|..]; rewrite Hi.
  - split; [done|]. by intros [].
  - split; [lia|]. intros _. exists x.
    by replace (Z.to_nat (0 + Z.of_nat n)) with n by lia.
Qed.

(** X14.  After every game over in the version with the local
    leaderboard, the board is descending by score and has at most five
    rows, whatever list was loaded before; the highlighted index is [-1] or
    the index of a row, and that row has the score and the date of the
    round just ended; it is [-1] only when no row has them. *)
Theorem game_over_leaves_a_sorted_board env s :
  let s' := Local.handleGameOver env s in
  descending Local.score (Local.leaderboard s')
  /\ (length (Local.leaderboard s') <= 5)%nat
  /\ -1 <= Local.newHighlight s' < Z.of_nat (length (Local.leaderboard s'))
  /\ (Local.newHighlight s' <> -1 ->
      exists e,
        Local.leaderboard s' !! Z.to_nat (Local.newHighlight s') = Some e
        /\ Local.score e = readScore (Local.digits env)
        /\ Local.date e = Local.nowEntry env)
  /\ (Local.newHighlight s' = -1 ->
      forall e, e ∈ Local.leaderboard s' ->
        ~ (Local.score e = readScore (Local.digits env)
           /\ Local.date e = Local.nowEntry env)).
Proof.
  intros s'. subst s'. simpl.
  set (entry := Local.mkEntry _ _ _ _).
  destruct (findIndex_found (Local.sameDateAndScore entry)
              (Local.withEntry entry (Local.leaderboard s))) as [Hnone Hsome].
  split; [apply descending_take, sortByScoreDesc_descending|].
  split; [unfold Local.withEntry; rewrite length_take; lia|].
  split; [apply findIndex_bounds|]. split.
  - intros Hne. destruct (Hsome Hne) as (e & He & Hp).
    apply sameDateAndScore_true in Hp as [Hd Hs]. by exists e.
  - intros Heq e He [Hs Hd]. specialize (Hnone Heq).
    rewrite Forall_forall in Hnone. specialize (Hnone e He).
    assert (Local.sameDateAndScore entry e = true)
      by by apply sameDateAndScore_true.
    congruence.
Qed.

Lemma game_over_leaves_a_sorted_board_witness :
  exists e,
    Local.leaderboard (Local.handleGameOver gameOverAt7s localRoundPlayed)
    !! Z.to_nat (Local.newHighlight
                   (Local.handleGameOver gameOverAt7s localRoundPlayed))
    = Some e
    /\ Local.score e = 100.
Proof.
  destruct (game_over_leaves_a_sorted_board gameOverAt7s localRoundPlayed)
    as (_ & _ & _ & H & _).
  destruct H as (e & He & Hs & _); [discriminate|].
  exists e. split; [exact He|]. rewrite Hs. reflexivity.
Defined.


(** X16.  The listener on the remote top ten shows the rows of the
    snapshot, all of them and no others, descending by score with rows of
    equal score in the snapshot's order, and shows an empty board when the
    snapshot holds nothing; a snapshot already descending is shown as it
    is.  The listener writes nothing to [localStorage] and changes nothing
    else of the state: each of the fourteen other cells keeps its
    value. *)
Theorem snapshot_is_shown_sorted data s :
  let s' := Arcade.onValue data s in
  match data with
  | None => Arcade.leaderboard s' = []
  | Some rows =>
      Arcade.leaderboard s' ≡ₚ rows
      /\ descending Arcade.score (Arcade.leaderboard s')
      /\ tiesInOrder Arcade.score rows (Arcade.leaderboard s')
      /\ (descending Arcade.score rows -> Arcade.leaderboard s' = rows)
  end
  /\ Arcade.localStorage s' = Arcade.localStorage s
  /\ Arcade.pushed s' = Arcade.pushed s
  /\ Arcade.sessionStats s' = Arcade.sessionStats s
  /\ Arcade.streak s' = Arcade.streak s
  /\ Arcade.gameState s' = Arcade.gameState s
  /\ Arcade.isGameActiveRef s' = Arcade.isGameActiveRef s
  /\ Arcade.jumpCountRef s' = Arcade.jumpCountRef s
  /\ Arcade.prevShoulderRef s' = Arcade.prevShoulderRef s
  /\ Arcade.lastJumpTimeRef s' = Arcade.lastJumpTimeRef s
  /\ Arcade.roundStartRef s' = Arcade.roundStartRef s
  /\ Arcade.playerNameRef s' = Arcade.playerNameRef s
  /\ Arcade.playerName s' = Arcade.playerName s
  /\ Arcade.inputName s' = Arcade.inputName s
  /\ Arcade.lastGameScore s' = Arcade.lastGameScore s.
Proof.
  intros s'. subst s'. simpl. split; [|by repeat split].
  destruct data as [rows|]; [|done].
  split; [apply sortByScoreDesc_perm|].
  split; [apply sortByScoreDesc_descending|].
  split; [apply sortByScoreDesc_stable|].
  apply sortByScoreDesc_sorted_input.
Qed.

Lemma snapshot_is_shown_sorted_witness :
  Arcade.leaderboard
    (Arcade.onValue
       (Some [Arcade.mkRecord "ADA" 300 2 4 20 "arcade";
              Arcade.mkRecord "BOB" 150 1 2 9 "arcade"])
       arcadeRoundEnded)
  = [Arcade.mkRecord "ADA" 300 2 4 20 "arcade";
     Arcade.mkRecord "BOB" 150 1 2 9 "arcade"].
Proof.
  destruct (snapshot_is_shown_sorted
              (Some [Arcade.mkRecord "ADA" 300 2 4 20 "arcade";
                     Arcade.mkRecord "BOB" 150 1 2 9 "arcade"])
              arcadeRoundEnded) as [(_ & _ & _ & H) _].
  apply H. repeat constructor; simpl; lia.
Defined.

(* ================================================================== *)
(** * Hooking the engine *)

Lemma ticks_patched {CB} props (r : DinoGame.Runner CB) :
  isPatched (DinoGame.gameOver r) = true ->
  DinoGame.ticks props (Some r) = Some r.
Proof.
  intros Hp. unfold DinoGame.ticks.
  induction props as [|p props IH]; [done|].
  simpl. by rewrite Hp.
Qed.

Lemma ticks_absent {CB} props :
  DinoGame.ticks props (@None (DinoGame.Runner CB)) = None.
Proof. unfold DinoGame.ticks. by induction props. Qed.

(** X17.  The [DinoGame] component wraps the engine's [gameOver] once:
    while there is no engine instance a tick changes nothing and the
    polling goes on; the first tick that finds the engine installs the
    wrapper, applies the difficulty and stops the polling; whatever ticks
    follow, with whatever callback and difficulty, leave the engine as it
    is.  So one game over of the engine runs the callback of the first
    effect once, and a difficulty given later is never applied. *)
Theorem engine_hook_installed_once {CB : Type} :
  (forall (cb : option CB) d, DinoGame.checkRunner cb d None = (None, false))
  /\ (forall props, DinoGame.ticks props (@None (DinoGame.Runner CB)) = None)
  /\ (forall (cb : option CB) d r, snd (DinoGame.checkRunner cb d (Some r)) = true)
  /\ (forall (cb : option CB) d props r,
        isPatched (DinoGame.gameOver r) = false ->
        DinoGame.ticks ((cb, d) :: props) (Some r)
        = Some (DinoGame.mkRunner
                  (patchedGameOver cb (DinoGame.gameOver r))
                  (DinoGame.setSpeedCalls r ++ [DinoGame.speed d])
                  (DinoGame.mkConfig (DinoGame.speed d)
                     (DinoGame.acceleration d) (DinoGame.gapCoefficient d)
                     (DinoGame.maxObstacleDuplication d))))
  /\ (forall (cb : option CB) d props r r',
        isPatched (DinoGame.gameOver r) = false ->
        DinoGame.ticks ((cb, d) :: props) (Some r) = Some r' ->
        callGameOver (DinoGame.gameOver r')
        = option_list cb ++ callGameOver (DinoGame.gameOver r))
  /\ (forall props (r : DinoGame.Runner CB),
        isPatched (DinoGame.gameOver r) = true ->
        DinoGame.ticks props (Some r) = Some r).
Proof.
  assert (Hfirst : forall (cb : option CB) d props r,
            isPatched (DinoGame.gameOver r) = false ->
            DinoGame.ticks ((cb, d) :: props) (Some r)
            = Some (DinoGame.mkRunner
                      (patchedGameOver cb (DinoGame.gameOver r))
                      (DinoGame.setSpeedCalls r ++ [DinoGame.speed d])
                      (DinoGame.mkConfig (DinoGame.speed d)
                         (DinoGame.acceleration d) (DinoGame.gapCoefficient d)
                         (DinoGame.maxObstacleDuplication d)))).
  { intros cb d props r Hp. unfold DinoGame.ticks. simpl. rewrite Hp.
    by apply (ticks_patched props). }
  repeat apply conj; try done.
  - apply ticks_absent.
  - intros cb d props r r' Hp Ht. rewrite (Hfirst cb d props r Hp) in Ht.
    by injection Ht as <-.
  - intros props r. apply ticks_patched.
Qed.

Lemma engine_hook_installed_once_witness :
  callGameOver
    (DinoGame.gameOver
       (default (DinoGame.mkRunner engineGameOver []
                   (DinoGame.mkConfig 6 0 1 2))
          (DinoGame.ticks
             [(Some "handleCrash", DinoGame.mkDifficulty 3.5 0 28 1);
              (Some "handleCrash", DinoGame.defaultDifficulty);
              (None, DinoGame.defaultDifficulty)]
             (Some (DinoGame.mkRunner engineGameOver []
                      (DinoGame.mkConfig 6 0 1 2))))))
  = ["handleCrash"].
Proof.
  destruct (@engine_hook_installed_once string) as (_ & _ & _ & H & _).
  rewrite H; reflexivity.
Defined.

(** X18.  The components that hook the engine themselves do so once as
    well: the first tick that finds the engine wraps [gameOver] and stops
    the polling, ticks of later effects leave the wrapper in place, and
    one game over of the engine runs the callback once. *)
Theorem inline_hook_installed_once {CB : Type} :
  (forall cb : CB, checkRunnerInline cb None = (None, false))
  /\ (forall (cb : CB) fn, snd (checkRunnerInline cb (Some fn)) = true)
  /\ (forall (cb : CB) cbs fn,
        isPatched fn = false ->
        fold_left (fun w c => fst (checkRunnerInline c w)) (cb :: cbs) (Some fn)
        = Some (patchedGameOver (Some cb) fn))
  /\ (forall (cb : CB) cbs,
        fold_left (fun w c => fst (checkRunnerInline c w)) (cb :: cbs)
          (Some engineGameOver)
        = Some (patchedGameOver (Some cb) engineGameOver)
        /\ callGameOver (patchedGameOver (Some cb) engineGameOver) = [cb])
  /\ (forall (cbs : list CB) fn,
        isPatched fn = true ->
        fold_left (fun w c => fst (checkRunnerInline c w)) cbs (Some fn)
        = Some fn).
Proof.
  assert (Hkeep : forall (cbs : list CB) fn,
            isPatched fn = true ->
            fold_left (fun w c => fst (checkRunnerInline c w)) cbs (Some fn)
            = Some fn).
  { intros cbs fn Hp. induction cbs as [|c cbs IH]; [done|].
    simpl. by rewrite Hp. }
  assert (Hfirst : forall (cb : CB) cbs fn,
            isPatched fn = false ->
            fold_left (fun w c => fst (checkRunnerInline c w)) (cb :: cbs)
              (Some fn)
            = Some (patchedGameOver (Some cb) fn)).
  { intros cb cbs fn Hp. simpl. rewrite Hp. by apply Hkeep. }
  repeat apply conj; try done.
  intros cb cbs. split; [by apply Hfirst | done].
Qed.

Lemma inline_hook_installed_once_witness :
  fold_left (fun w c => fst (checkRunnerInline c w))
    ["handleGameOver"; "handleGameOver"] (Some engineGameOver)
  = Some (patchedGameOver (Some "handleGameOver") engineGameOver).
Proof.
  destruct (@inline_hook_installed_once string) as (_ & _ & H & _).
  apply H. reflexivity.
Defined.

(* ================================================================== *)
(** * Theme *)



(* ================================================================== *)
(** * [timeAgo] *)

(** X20.  [timeAgo] says "just now" for anything less than a minute old,
    also for a timestamp in the future; otherwise it gives whole minutes
    from 1 to 59, whole hours from 1 to 23, or whole days from 1 on, each
    rounded down. *)
Theorem timeAgo_ranges now_ timestamp :
  let d := now_ - timestamp in
  (d < 60000 -> timeAgo now_ timestamp = "just now")
  /\ (60000 <= d < 3600000 ->
      1 <= d / 60000 <= 59
      /\ timeAgo now_ timestamp = stringOfZ (d / 60000) +:+ "m ago")
  /\ (3600000 <= d < 86400000 ->
      1 <= d / 3600000 <= 23
      /\ timeAgo now_ timestamp = stringOfZ (d / 3600000) +:+ "h ago")
  /\ (86400000 <= d ->
      1 <= d / 86400000
      /\ timeAgo now_ timestamp = stringOfZ (d / 86400000) +:+ "d ago").
Proof.
  intros d. unfold timeAgo. fold d.
  assert (H60 : d / 1000 / 60 = d / 60000) by (rewrite Z.div_div by lia; reflexivity).
  assert (H3600 : d / 1000 / 3600 = d / 3600000) by (rewrite Z.div_div by lia; reflexivity).
  assert (H86400 : d / 1000 / 86400 = d / 86400000) by (rewrite Z.div_div by lia; reflexivity).
  rewrite H60, H3600, H86400.
  repeat apply conj.
  - intros Hd. assert (d / 1000 < 60) by (apply Z.div_lt_upper_bound; lia).
    by rewrite (proj2 (Z.ltb_lt _ _)).
  - intros Hd.
    assert (60 <= d / 1000) by (apply Z.div_le_lower_bound; lia).
    assert (d / 1000 < 3600) by (apply Z.div_lt_upper_bound; lia).
    rewrite (proj2 (Z.ltb_ge _ _)), (proj2 (Z.ltb_lt _ _)) by done.
    split; [|done]. split.
    + apply Z.div_le_lower_bound; lia.
    + assert (d / 60000 < 60) by (apply Z.div_lt_upper_bound; lia). lia.
  - intros Hd.
    assert (3600 <= d / 1000) by (apply Z.div_le_lower_bound; lia).
    assert (d / 1000 < 86400) by (apply Z.div_lt_upper_bound; lia).
    rewrite (proj2 (Z.ltb_ge (d / 1000) 60)) by lia.
    rewrite (proj2 (Z.ltb_ge _ _)), (proj2 (Z.ltb_lt _ _)) by done.
    split; [|done]. split.
    + apply Z.div_le_lower_bound; lia.
    + assert (d / 3600000 < 24) by (apply Z.div_lt_upper_bound; lia). lia.
  - intros Hd.
    assert (86400 <= d / 1000) by (apply Z.div_le_lower_bound; lia).
    rewrite (proj2 (Z.ltb_ge (d / 1000) 60)) by lia.
    rewrite (proj2 (Z.ltb_ge (d / 1000) 3600)) by lia.
    rewrite (proj2 (Z.ltb_ge _ _)) by done.
    split; [|done]. apply Z.div_le_lower_bound; lia.
Qed.

Lemma timeAgo_ranges_witness :
  timeAgo 7262000 0 = "2h ago" /\ timeAgo 0 5000 = "just now".
Proof.
  split.
  - destruct (timeAgo_ranges 7262000 0) as (_ & _ & H & _).
    destruct H as [_ ->]; [simpl; lia | reflexivity].
  - destruct (timeAgo_ranges 0 5000) as (H & _). apply H. simpl. lia.
Defined.

(* ================================================================== *)
(** * Reading a score spelled in digits *)

Lemma join_digit c ds :
  join EmptyString (String c EmptyString :: ds)
  = String c (join EmptyString ds).
Proof. by destruct ds. Qed.

Lemma digitOf_inv d v :
  digitOf d = Some v ->
  exists c, d = String c EmptyString /\ digitValue c = Some v /\ 0 <= v <= 9.
Proof.
  destruct d as [|c [|? ?]]; try done. simpl. intros Hv.
  exists c. split; [done|]. split; [done|].
  unfold digitValue in Hv.
  destruct (_ && _) eqn:E; [|done].
  apply andb_true_iff in E as [?%Z.leb_le ?%Z.leb_le].
  injection Hv as <-. lia.
Qed.

Lemma parseDigits_decimal acc ds n :
  decimalValue (default 0 acc) ds = Some n ->
  parseDigits acc (join EmptyString ds)
  = match ds with [] => acc | _ => Some n end.
Proof.
  revert acc. induction ds as [|d ds IH]; intros acc Hn; [done|].
  simpl in Hn. destruct (digitOf d) as [v|] eqn:Hd; [|done].
  apply digitOf_inv in Hd as (c & -> & Hc & _).
  rewrite join_digit. simpl. rewrite Hc.
  rewrite (IH (Some (10 * default 0 acc + v))) by done.
  destruct ds; [|done]. simpl in Hn. by injection Hn as <-.
Qed.

Lemma decimalValue_nonneg acc ds n :
  0 <= acc -> decimalValue acc ds = Some n -> 0 <= n.
Proof.
  revert acc. induction ds as [|d ds IH]; intros acc Hacc Hn; simpl in Hn.
  - injection Hn as <-. done.
  - destruct (digitOf d) as [v|] eqn:Hd; [|done].
    apply digitOf_inv in Hd as (_ & _ & _ & Hv).
    apply (IH (10 * acc + v)); [lia | done].
Qed.

Lemma parseInt_digit c r v :
  digitValue c = Some v ->
  parseInt (String c r) = parseDigits None (String c r).
Proof.
  destruct c as [[] [] [] [] [] [] [] []]; try discriminate; done.
Qed.

(** X21.  When the engine's digits are one-digit strings that spell, in
    base ten, a number below 2^53, the score read is that number, leading
    zeros counting for nothing and an empty array reading as 0; the score
    is then never negative.  (From 2^53 on the number [parseInt] returns
    is the nearest binary64 value, which [Z] does not follow.) *)
Theorem score_of_digits_is_their_value ds n :
  decimalValue 0 ds = Some n ->
  n < 2 ^ 53 ->
  readScore (Some ds) = n /\ 0 <= n.
Proof.
  intros Hn _. split; [|by apply (decimalValue_nonneg 0 ds)].
  unfold readScore. destruct ds as [|d ds].
  - simpl in Hn. by injection Hn as <-.
  - pose proof (parseDigits_decimal None (d :: ds) n Hn) as Hp.
    simpl in Hn. destruct (digitOf d) as [v|] eqn:Hd; [|done].
    apply digitOf_inv in Hd as (c & -> & Hc & _).
    rewrite join_digit in Hp |- *.
    by rewrite (parseInt_digit c _ v Hc), Hp.
Qed.

Lemma score_of_digits_is_their_value_witness :
  readScore (Some ["0"; "0"; "4"; "2"; "7"]) = 427.
Proof.
  apply (score_of_digits_is_their_value ["0"; "0"; "4"; "2"; "7"] 427).
  - reflexivity.
  - lia.
Defined.

(* ================================================================== *)
(** * The best streak *)

Lemma best_is_max_from scores st :
  0 <= current st <= best st ->
  best (streakAfter scores st)
  = Z.max (best st) (foldr Z.max 0 (currentHistory scores st)).
Proof.
  revert st. induction scores as [|score scores IH]; intros st Hst.
  - simpl. lia.
  - simpl. rewrite IH by (by apply updateStreak_invariant).
    assert (Hb : best (updateStreak score st)
                 = Z.max (best st) (current (updateStreak score st))).
    { unfold updateStreak.
      destruct ((lastScore st =? 0) || (lastScore st <? score)); simpl; lia. }
    rewrite Hb. lia.
Qed.

(** X22.  Starting from {0, 0, 0}, [best] is at every time the largest
    value [current] has had so far, and neither exceeds the number of
    rounds played. *)
Theorem best_is_largest_current scores :
  let st := streakAfter scores emptyStreak in
  best st = foldr Z.max 0 (currentHistory scores emptyStreak)
  /\ current st <= best st <= Z.of_nat (length scores).
Proof.
  intros st. subst st. split.
  - rewrite best_is_max_from by (simpl; lia). simpl.
    assert (Hn : forall l, Forall (fun c => 0 <= c) l -> 0 <= foldr Z.max 0 l).
    { intros l Hl. induction Hl; simpl; lia. }
    assert (Hh : forall sc st0, 0 <= current st0 <= best st0 ->
              Forall (fun c => 0 <= c) (currentHistory sc st0)).
    { intros sc. induction sc as [|x sc IHsc]; intros st0 H0; simpl;
        [constructor|].
      pose proof (updateStreak_invariant x st0 H0).
      constructor; [lia | by apply IHsc]. }
    specialize (Hn _ (Hh scores emptyStreak ltac:(simpl; lia))). lia.
  - split; [apply (streakAfter_invariant scores emptyStreak); simpl; lia|].
    assert (Hg : forall sc st0 k, 0 <= current st0 <= best st0 ->
              best st0 <= k ->
              best (streakAfter sc st0) <= k + Z.of_nat (length sc)).
    { intros sc. induction sc as [|x sc IHsc]; intros st0 k H0 Hk; simpl; [lia|].
      pose proof (updateStreak_invariant x st0 H0) as H1.
      assert (best (updateStreak x st0) <= k + 1).
      { unfold updateStreak.
        destruct ((lastScore st0 =? 0) || (lastScore st0 <? x)); simpl; lia. }
      specialize (IHsc (updateStreak x st0) (k + 1) H1 ltac:(done)). lia. }
    specialize (Hg scores emptyStreak 0 ltac:(simpl; lia) ltac:(simpl; lia)).
    lia.
Qed.

(* ================================================================== *)
(** * The stored sample and the totals *)

(** X23.  After any frames the detector holds the last sample they
    carried, whether or not a jump was emitted for it and, where there is
    an active-round flag, whether or not a round was active; frames without
    a pose leave the stored sample alone. *)
Theorem detector_holds_last_sample :
  (forall fs s,
     Basic.prevShoulderRef (fst (Basic.run fs s))
     = lastSample (Basic.prevShoulderRef s) fs)
  /\ (forall fs s,
        Local.prevShoulderRef (fst (Local.run (Local.EvFrame <$> fs) s))
        = lastSample (Local.prevShoulderRef s) fs)
  /\ (forall fs s,
        Arcade.prevShoulderRef (fst (Arcade.run (Arcade.EvFrame <$> fs) s))
        = lastSample (Arcade.prevShoulderRef s) fs).
Proof.
  unfold lastSample. repeat apply conj.
  - unfold Basic.run. intros fs. induction fs as [|f fs IH]; intros s; [done|].
    rewrite runWith_cons. simpl. by rewrite IH, Basic_onResults_prev.
  - unfold Local.run. intros fs. induction fs as [|f fs IH]; intros s; [done|].
    rewrite fmap_cons, runWith_cons. simpl.
    by rewrite IH, Local_onResults_prev.
  - unfold Arcade.run. intros fs. induction fs as [|f fs IH]; intros s; [done|].
    rewrite fmap_cons, runWith_cons.
    change (Arcade.step (Arcade.EvFrame f) s) with (Arcade.onResults f s).
    simpl. by rewrite IH, Arcade_onResults_prev.
Qed.

Lemma Arcade_step_totals ev s :
  arcadeFacts s -> ev <> Arcade.EvResetStats ->
  totalJumps (Arcade.sessionStats s)
  <= totalJumps (Arcade.sessionStats (fst (Arcade.step ev s)))
  /\ roundsPlayed (Arcade.sessionStats s)
     <= roundsPlayed (Arcade.sessionStats (fst (Arcade.step ev s))).
Proof.
  intros (_ & Hjc & _) Hev. unfold Arcade.step.
  destruct (Arcade.offered ev s); [|simpl; lia].
  destruct ev; simpl; try done; try lia.
  - unfold Arcade.handleNameSubmit.
    destruct (truthy (trim (Arcade.inputName s))); simpl; lia.
  - unfold Arcade.handleCrash, Arcade.handleGameOver.
    destruct (Arcade.isGameActiveRef s); simpl; lia.
  - destruct (Arcade_onResults_rest f s) as (_ & _ & _ & _ & H5 & _).
    simpl in H5. rewrite H5. lia.
Qed.

Lemma Local_step_totals ev s :
  localFacts s -> ev <> Local.EvResetStats ->
  totalJumps (Local.sessionStats s)
  <= totalJumps (Local.sessionStats (fst (Local.step ev s)))
  /\ roundsPlayed (Local.sessionStats s)
     <= roundsPlayed (Local.sessionStats (fst (Local.step ev s))).
Proof.
  intros (_ & _ & _ & Hjc) Hev.
  destruct ev; simpl; try done; try lia.
  destruct (Local_onResults_rest f s) as (_ & _ & _ & H4 & _).
  simpl in H4. rewrite H4. lia.
Qed.

(** X24.  The totals of jumps and of rounds never go down except by a
    reset of the statistics: over any events other than a reset, in both
    versions that keep statistics, they are at least what they were. *)
Theorem totals_never_decrease :
  (forall s evs,
     Arcade.reachable s ->
     Forall (fun ev => ev <> Arcade.EvResetStats) evs ->
     totalJumps (Arcade.sessionStats s)
     <= totalJumps (Arcade.sessionStats (fst (Arcade.run evs s)))
     /\ roundsPlayed (Arcade.sessionStats s)
        <= roundsPlayed (Arcade.sessionStats (fst (Arcade.run evs s))))
  /\ (forall ls now_ evs0 evs,
        let s := fst (Local.run evs0 (Local.init ls now_)) in
        Forall (fun ev => ev <> Local.EvResetStats) evs ->
        totalJumps (Local.sessionStats s)
        <= totalJumps (Local.sessionStats (fst (Local.run evs s)))
        /\ roundsPlayed (Local.sessionStats s)
           <= roundsPlayed (Local.sessionStats (fst (Local.run evs s)))).
Proof.
  split.
  - intros s evs Hr. apply Arcade_reachable_facts in Hr. revert s Hr.
    unfold Arcade.run. induction evs as [|ev evs IH]; intros s Hs Hevs.
    + simpl. lia.
    + apply Forall_cons in Hevs as [Hev Hevs]. rewrite runWith_cons. simpl.
      destruct (Arcade_step_totals ev s Hs Hev) as [H1 H2].
      destruct (IH _ (Arcade_step_facts ev s Hs) Hevs) as [I1 I2]. lia.
  - intros ls now_ evs0 evs s.
    assert (Hs : localFacts s).
    { apply Local_run_facts. by repeat split. }
    clearbody s. revert s Hs.
    unfold Local.run. induction evs as [|ev evs IH]; intros s Hs Hevs.
    + simpl. lia.
    + apply Forall_cons in Hevs as [Hev Hevs]. rewrite runWith_cons. simpl.
      destruct (Local_step_totals ev s Hs Hev) as [H1 H2].
      destruct (IH _ (Local_step_facts ev s Hs) Hevs) as [I1 I2]. lia.
Qed.

Lemma totals_never_decrease_witness :
  totalJumps (Arcade.sessionStats arcadeRoundStarted)
  <= totalJumps
       (Arcade.sessionStats
          (fst (Arcade.run
                  [Arcade.EvFrame (frameAt 0.5 1000);
                   Arcade.EvFrame (frameAt 0.25 2000);
                   Arcade.EvGameOver (Arcade.mkEnv None 9000 9000)]
                  arcadeRoundStarted))).
Proof.
  destruct totals_never_decrease as [H _].
  apply (H arcadeRoundStarted); [exact arcadeRoundStarted_reachable|].
  repeat constructor; discriminate.
Defined.
